(** * Verification of the doubly-linked list module ([dlist.c]) and of
      [Solution::titleToNumber] (171-ExcelSheetColumnNumber.cpp).

    The C code manipulates heap cells through pointers.  It is embedded
    as programs of a small state-and-undefined-behaviour monad over an
    explicit store: a finite map from addresses to list elements, the
    [DList] structure the operations receive, and the trace of the
    user callbacks that were invoked. *)

From Stdlib Require Import ZArith String Ascii.
From stdpp Require Import base option list gmap.

Local Open Scope Z_scope.

(** ** Memory model *)

(** Addresses of heap cells.  A C pointer is an [option loc]; [None] is
    [NULL]. *)
Definition loc := positive.

(** Function pointers are kept abstract: only their identity and
    whether they are [NULL] matters to the list module. *)
Definition fnptr := positive.

Module DL.

(** ** The monad of C statements

    A statement maps a store to a result and a new store, or to [None]
    when the C program has no defined result: a dereference of [NULL]
    or of an address that is not allocated, a read of an uninitialised
    variable, or a loop that has used up its fuel. *)
Definition M (St R : Type) : Type := St → option (R * St).

Definition ret {St R} (r : R) : M St R := λ s, Some (r, s).

Definition bind {St R S} (m : M St R) (k : R → M St S) : M St S :=
  λ s, match m s with
       | Some (r, s') => k r s'
       | None => None
       end.

Definition undefined {St R} : M St R := λ _, None.

Declare Scope dl_scope.
Delimit Scope dl_scope with dl.
Notation "x ← m ; k" := (bind m (λ x, k))
  (at level 20, m at level 100, k at level 200, only parsing) : dl_scope.
Notation "m ;; k" := (bind m (λ _, k))
  (at level 100, k at level 200, only parsing, right associativity) : dl_scope.
Local Open Scope dl_scope.

Section WithPayload.

(** The payload type behind [void *data]. *)
Context {A : Type}.

(** Modelled from the spec: [dlist.h] is not part of the sources.  An
    element "holds one opaque payload reference and two relationship
    pointers: a previous back-reference and a next forward reference,
    each either pointing to another Element or denoting none".  The
    projections carry the names of the accessors [dlist_data],
    [dlist_prev], [dlist_next]. *)
Record DListElmt : Type := mkElmt {
  dlist_data : A;
  dlist_prev : option loc;
  dlist_next : option loc
}.

(** Modelled from the spec: [dlist.h] is not part of the sources.  The
    list "holds a count of elements, a reference to the head Element,
    a reference to the tail Element, an optional equality-comparison
    function over payloads, and an optional destructor callback".  The
    C type of the count is declared in the missing header; the count is
    modelled as an unbounded integer, so that [size++] and [size--] are
    exact.  [dlist_size], [dlist_head] and [dlist_tail] are the accessor
    macros the source uses. *)
Record DList : Type := mkDList {
  dlist_size : Z;
  dlist_match : option fnptr;
  destroy : option fnptr;
  dlist_head : option loc;
  dlist_tail : option loc
}.

(** The store the operations run on: the allocated elements, the list
    structure [*list], and the calls made to user callbacks, oldest
    first. *)
Record state : Type := mkState {
  heap : gmap loc DListElmt;
  dl : DList;
  calls : list (fnptr * A)
}.

Abbreviation M := (M state).

(** Field updates of the two structures. *)
Definition with_size (z : Z) (l : DList) : DList :=
  mkDList z (dlist_match l) (destroy l) (dlist_head l) (dlist_tail l).
Definition with_head (p : option loc) (l : DList) : DList :=
  mkDList (dlist_size l) (dlist_match l) (destroy l) p (dlist_tail l).
Definition with_tail (p : option loc) (l : DList) : DList :=
  mkDList (dlist_size l) (dlist_match l) (destroy l) (dlist_head l) p.
Definition with_prev (p : option loc) (e : DListElmt) : DListElmt :=
  mkElmt (dlist_data e) p (dlist_next e).
Definition with_next (p : option loc) (e : DListElmt) : DListElmt :=
  mkElmt (dlist_data e) (dlist_prev e) p.

(** Reads and writes of [*list]. *)
Definition read_list {R} (f : DList → R) : M R := λ s, Some (f (dl s), s).
Definition write_list (f : DList → DList) : M unit :=
  λ s, Some (tt, mkState (heap s) (f (dl s)) (calls s)).

(** [p->field]: defined only when [p] points to an allocated element. *)
Definition load {R} (p : option loc) (f : DListElmt → R) : M R :=
  λ s, match p with
       | Some l => match heap s !! l with
                   | Some e => Some (f e, s)
                   | None => None
                   end
       | None => None
       end.

(** [p->field = v]. *)
Definition store (p : option loc) (f : DListElmt → DListElmt) : M unit :=
  λ s, match p with
       | Some l => match heap s !! l with
                   | Some e => Some (tt, mkState (<[l := f e]> (heap s)) (dl s) (calls s))
                   | None => None
                   end
       | None => None
       end.

(** [new_element = malloc(sizeof(DListElmt)); new_element->data = data].
    The answer of the allocator is an input of the model: [None] when
    the allocation fails, the address of the new cell otherwise.  The
    contents of a new cell are indeterminate; the cell is created with
    its [data] field assigned, which is the first thing the source does
    with it, and with links that both insertion routines overwrite
    before they read them. *)
Definition malloc_elmt (new_element : option loc) (d : A) : M unit :=
  λ s, match new_element with
       | Some l => Some (tt, mkState (<[l := mkElmt d None None]> (heap s)) (dl s) (calls s))
       | None => Some (tt, s)
       end.

(** [free(p)]. *)
Definition free (p : option loc) : M unit :=
  λ s, match p with
       | Some l => match heap s !! l with
                   | Some _ => Some (tt, mkState (delete l (heap s)) (dl s) (calls s))
                   | None => None
                   end
       | None => Some (tt, s)
       end.

(** A call [f(d)] of a user callback: recorded in the trace. *)
Definition call (f : fnptr) (d : A) : M unit :=
  λ s, Some (tt, mkState (heap s) (dl s) (calls s ++ [(f, d)])).

Definition is_null (p : option loc) : bool :=
  match p with None => true | Some _ => false end.

Definition ptr_eqb (p q : option loc) : bool := bool_decide (p = q).

(** ** The operations of [dlist.c] *)

(** [dlist_init] *)
Definition dlist_init (destroy_fn match_fn : option fnptr) : M unit :=
  write_list (with_size 0);;
  write_list (λ l, mkDList (dlist_size l) match_fn (destroy l) (dlist_head l) (dlist_tail l));;
  write_list (λ l, mkDList (dlist_size l) (dlist_match l) destroy_fn (dlist_head l) (dlist_tail l));;
  write_list (with_head None);;
  write_list (with_tail None).

(** [dlist_ins_next].  [new_element] is the answer of [malloc]. *)
Definition dlist_ins_next (new_element : option loc)
    (element : option loc) (d : A) : M Z :=
  sz ← read_list dlist_size;
  if is_null element && negb (sz =? 0) then ret (-1) else
  malloc_elmt new_element d;;
  if is_null new_element then ret (-1) else
  sz ← read_list dlist_size;
  (if sz =? 0 then
     write_list (with_head new_element);;
     hd ← read_list dlist_head;
     store hd (with_prev None);;
     hd ← read_list dlist_head;
     store hd (with_next None);;
     write_list (with_tail new_element)
   else
     en ← load element dlist_next;
     store new_element (with_next en);;
     store new_element (with_prev element);;
     en ← load element dlist_next;
     (if is_null en then write_list (with_tail new_element)
      else store en (with_prev new_element));;
     store element (with_next new_element));;
  sz ← read_list dlist_size;
  write_list (with_size (sz + 1));;
  ret 0.

(** [dlist_ins_prev] *)
Definition dlist_ins_prev (new_element : option loc)
    (element : option loc) (d : A) : M Z :=
  sz ← read_list dlist_size;
  if is_null element && negb (sz =? 0) then ret (-1) else
  malloc_elmt new_element d;;
  if is_null new_element then ret (-1) else
  sz ← read_list dlist_size;
  (if sz =? 0 then
     write_list (with_head new_element);;
     hd ← read_list dlist_head;
     store hd (with_prev None);;
     hd ← read_list dlist_head;
     store hd (with_next None);;
     write_list (with_tail new_element)
   else
     ep ← load element dlist_prev;
     store new_element (with_prev ep);;
     store new_element (with_next element);;
     ep ← load element dlist_prev;
     (if is_null ep then write_list (with_head new_element)
      else store ep (with_next new_element));;
     store element (with_prev new_element));;
  sz ← read_list dlist_size;
  write_list (with_size (sz + 1));;
  ret 0.

(** [dlist_remove].  The second component of the result is what the
    routine stored through its [data] argument, [None] when it stored
    nothing. *)
Definition dlist_remove (element : option loc) : M (Z * option A) :=
  sz ← read_list dlist_size;
  if is_null element || (sz =? 0) then ret (-1, None) else
  d ← load element dlist_data;
  hd ← read_list dlist_head;
  (if ptr_eqb element hd then
     en ← load element dlist_next;
     write_list (with_head en);;
     hd ← read_list dlist_head;
     (if is_null hd then write_list (with_tail None)
      else en ← load element dlist_next;
           store en (with_prev None))
   else
     ep ← load element dlist_prev;
     en ← load element dlist_next;
     store ep (with_next en);;
     en ← load element dlist_next;
     (if is_null en then
        ep ← load element dlist_prev;
        write_list (with_tail ep)
      else
        en ← load element dlist_next;
        ep ← load element dlist_prev;
        store en (with_prev ep)));;
  free element;;
  sz ← read_list dlist_size;
  write_list (with_size (sz - 1));;
  ret (0, Some d).

(** The [while] loop of [dlist_destroy].  [data] is the local variable
    of that name, [None] while it is uninitialised.  The source spells
    the callback field [destory] in this function; it is read as the
    [destroy] field that [dlist_init] sets. *)
Fixpoint destroy_loop (fuel : nat) (data : option A) : M unit :=
  sz ← read_list dlist_size;
  if 0 <? sz then
    match fuel with
    | O => undefined
    | S fuel' =>
        tl ← read_list dlist_tail;
        r ← dlist_remove tl;
        let data' := match r.2 with Some d => Some d | None => data end in
        (if r.1 =? 0 then
           fn ← read_list destroy;
           match fn with
           | Some f => match data' with
                       | Some d => call f d
                       | None => undefined
                       end
           | None => ret tt
           end
         else ret tt);;
        destroy_loop fuel' data'
    end
  else ret tt.

(** [memset(list, 0, sizeof(DList))] *)
Definition memset_list : M unit :=
  write_list (λ _, mkDList 0 None None None None).

(** [dlist_destroy] *)
Definition dlist_destroy (fuel : nat) : M unit :=
  destroy_loop fuel None;;
  memset_list.

(** ** Sequences of operations *)

(** One call of a mutating operation, with its arguments and, for an
    insertion, the answer of the allocator. *)
Inductive op : Type :=
  | InsertAfter (element : option loc) (d : A) (new_element : option loc)
  | InsertBefore (element : option loc) (d : A) (new_element : option loc)
  | Remove (element : option loc).

Definition is_insert (o : op) : bool :=
  match o with Remove _ => false | _ => true end.

(** Runs one operation and gives the [int] it returns. *)
Definition step (o : op) : M Z :=
  match o with
  | InsertAfter element d new_element => dlist_ins_next new_element element d
  | InsertBefore element d new_element => dlist_ins_prev new_element element d
  | Remove element => r ← dlist_remove element; ret r.1
  end.

(** Runs the operations in order and collects what they return. *)
Fixpoint run (ops : list op) : M (list Z) :=
  match ops with
  | [] => ret []
  | o :: ops' => r ← step o; rs ← run ops'; ret (r :: rs)
  end.

(** Number of operations of [ops] selected by [sel] that returned 0. *)
Fixpoint count_success (sel : op → bool) (ops : list op) (rets : list Z) : Z :=
  match ops, rets with
  | o :: ops', r :: rets' =>
      (if sel o && (r =? 0) then 1 else 0) + count_success sel ops' rets'
  | _, _ => 0
  end.

(** ** The structural invariants, as scans over the store *)

(** Follows [next] from [p] until [NULL]; the elements visited, in
    order.  [None] when an element is not allocated or more than
    [fuel] elements are met. *)
Fixpoint scan_next (fuel : nat) (h : gmap loc DListElmt) (p : option loc)
    : option (list loc) :=
  match p with
  | None => Some []
  | Some l =>
      match fuel with
      | O => None
      | S fuel' =>
          match h !! l with
          | Some e => cons l <$> scan_next fuel' h (dlist_next e)
          | None => None
          end
      end
  end.

(** The same along [prev]. *)
Fixpoint scan_prev (fuel : nat) (h : gmap loc DListElmt) (p : option loc)
    : option (list loc) :=
  match p with
  | None => Some []
  | Some l =>
      match fuel with
      | O => None
      | S fuel' =>
          match h !! l with
          | Some e => cons l <$> scan_prev fuel' h (dlist_prev e)
          | None => None
          end
      end
  end.

(** The forward scan from the head and the backward scan from the
    tail, each allowed to visit [size] elements. *)
Definition forward_scan (s : state) : option (list loc) :=
  scan_next (Z.to_nat (dlist_size (dl s))) (heap s) (dlist_head (dl s)).
Definition backward_scan (s : state) : option (list loc) :=
  scan_prev (Z.to_nat (dlist_size (dl s))) (heap s) (dlist_tail (dl s)).

(** The members of the list: what the forward scan visits. *)
Definition dlist_members (s : state) : list loc :=
  default [] (forward_scan s).

(** [e->next->prev == e] when [e] has a next element and
    [e->prev->next == e] when it has a previous one. *)
Definition links_ok (h : gmap loc DListElmt) (e : loc) : Prop :=
  match h !! e with
  | Some n =>
      match dlist_next n with
      | Some x => dlist_prev <$> h !! x = Some (Some e)
      | None => True
      end ∧
      match dlist_prev n with
      | Some x => dlist_next <$> h !! x = Some (Some e)
      | None => True
      end
  | None => False
  end.

(** The field [f] of the element [p] points to, when there is one. *)
Definition field_of (h : gmap loc DListElmt) (p : option loc)
    (f : DListElmt → option loc) : option (option loc) :=
  match p with
  | Some l => f <$> h !! l
  | None => None
  end.

(** The invariants of the data model: [size == 0] iff head and tail
    are none; the head has no previous and the tail no next element;
    neighbouring elements point at each other; both scans visit
    exactly [size] elements, and the same ones. *)
Definition dlist_invariants (s : state) : Prop :=
  (dlist_size (dl s) = 0 ↔ dlist_head (dl s) = None ∧ dlist_tail (dl s) = None) ∧
  (is_null (dlist_head (dl s)) = false →
     field_of (heap s) (dlist_head (dl s)) dlist_prev = Some None) ∧
  (is_null (dlist_tail (dl s)) = false →
     field_of (heap s) (dlist_tail (dl s)) dlist_next = Some None) ∧
  match forward_scan s, backward_scan s with
  | Some fs, Some bs =>
      Z.of_nat (length fs) = dlist_size (dl s) ∧
      Z.of_nat (length bs) = dlist_size (dl s) ∧
      Forall (λ e, e ∈ bs) fs ∧ Forall (λ e, e ∈ fs) bs ∧
      Forall (links_ok (heap s)) fs
  | _, _ => False
  end.

(** The invariants can be checked by running the scans. *)
Global Instance links_ok_dec h e : Decision (links_ok h e).
Proof.
  unfold links_ok. destruct (h !! e) as [n|]; [|apply _].
  destruct (dlist_next n), (dlist_prev n); apply _.
Defined.

Global Instance dlist_invariants_dec s : Decision (dlist_invariants s).
Proof.
  unfold dlist_invariants.
  destruct (forward_scan s), (backward_scan s); apply _.
Defined.

(** The constraint of the operations on their [element] argument:
    none, or a member of the list. *)
Definition valid_element (s : state) (element : option loc) : Prop :=
  match element with
  | Some e => e ∈ dlist_members s
  | None => True
  end.

(** When an insertion fails: [element] is none while the list is not
    empty, or the allocation fails. *)
Definition ins_failure (s : state) (new_element element : option loc) : Prop :=
  (element = None ∧ dlist_size (dl s) ≠ 0) ∨ new_element = None.

(** When a removal fails: [element] is none or the list is empty. *)
Definition remove_failure (s : state) (element : option loc) : Prop :=
  element = None ∨ dlist_size (dl s) = 0.

(** What [malloc] may answer: [NULL], or an address that is not
    allocated. *)
Definition fresh (s : state) (new_element : option loc) : Prop :=
  match new_element with
  | Some l => heap s !! l = None
  | None => True
  end.

(** The payloads of the members, from head to tail. *)
Definition dlist_payloads (s : state) : list A :=
  omap (λ l, dlist_data <$> heap s !! l) (dlist_members s).

(** The conditions under which an operation is called: an insertion
    into a non-empty list and a removal are given none or a member of
    the list, and the allocator answers with a free address. *)
Definition op_ok (s : state) (o : op) : Prop :=
  match o with
  | InsertAfter element _ new_element
  | InsertBefore element _ new_element =>
      (dlist_size (dl s) ≠ 0 → valid_element s element) ∧ fresh s new_element
  | Remove element => valid_element s element
  end.

Global Instance valid_element_dec s element : Decision (valid_element s element).
Proof. destruct element; simpl; apply _. Defined.

Global Instance fresh_dec s new_element : Decision (fresh s new_element).
Proof. destruct new_element; simpl; apply _. Defined.

Global Instance op_ok_dec s o : Decision (op_ok s o).
Proof. destruct o; simpl; apply _. Defined.

(** Every operation of the sequence is called under these conditions. *)
Fixpoint run_ok (ops : list op) (s : state) : Prop :=
  match ops with
  | [] => True
  | o :: ops' => op_ok s o ∧ ∀ r s', step o s = Some (r, s') → run_ok ops' s'
  end.

(** The list structure after [memset]: the sentinel state. *)
Definition sentinel : DList := mkDList 0 None None None None.

(** ** The abstract contents of a list *)

(** The address of the first element of [els], [q] when there is none. *)
Definition first_or (els : list (loc * A)) (q : option loc) : option loc :=
  match els with
  | [] => q
  | e :: _ => Some e.1
  end.

(** The address of the last element of [els], [p] when there is none. *)
Definition last_or (els : list (loc * A)) (p : option loc) : option loc :=
  match last els with
  | Some e => Some e.1
  | None => p
  end.

(** [dlseg h p els q]: the elements [els] (address and payload) are
    allocated in [h] and linked in this order, the first one with [p]
    as previous and the last one with [q] as next element. *)
Fixpoint dlseg (h : gmap loc DListElmt) (p : option loc)
    (els : list (loc * A)) (q : option loc) : Prop :=
  match els with
  | [] => True
  | e :: els' =>
      h !! e.1 = Some (mkElmt e.2 p (first_or els' q)) ∧
      dlseg h (Some e.1) els' q
  end.

(** The store holds the list [els]. *)
Definition dl_repr (s : state) (els : list (loc * A)) : Prop :=
  dlist_size (dl s) = Z.of_nat (length els) ∧
  dlist_head (dl s) = first_or els None ∧
  dlist_tail (dl s) = last_or els None ∧
  dlseg (heap s) None els None ∧
  NoDup els.*1.

(** ** Further observations of a store *)

(** The members with their payloads, from head to tail. *)
Definition dlist_contents (s : state) : list (loc * A) :=
  omap (λ l, (λ e, (l, dlist_data e)) <$> heap s !! l) (dlist_members s).

(** The field [f] of the element [element] points to, [None] when
    there is no such field or it is [NULL]. *)
Definition neighbour (s : state) (element : option loc)
    (f : DListElmt → option loc) : option loc :=
  match field_of (heap s) element f with
  | Some p => p
  | None => None
  end.

(** ** The rounds of the loop of [dlist_destroy] *)

(** The body of the [while] loop: one call of [dlist_remove] on the
    tail and, when it returns 0 and a destructor is registered, the
    call of the destructor.  The result is the local variable [data]
    after the round. *)
Definition destroy_round (data : option A) : M (option A) :=
  tl ← read_list dlist_tail;
  r ← dlist_remove tl;
  let data' := match r.2 with Some d => Some d | None => data end in
  (if r.1 =? 0 then
     fn ← read_list destroy;
     match fn with
     | Some f => match data' with
                 | Some d => call f d
                 | None => undefined
                 end
     | None => ret tt
     end
   else ret tt);;
  ret data'.

(** How the loop stands after at most [fuel] rounds: it has left the
    loop with a store, a round had no defined result, or the test
    [dlist_size(list) > 0] still holds after [fuel] rounds that all
    had a defined result. *)
Inductive loop_result : Type :=
  | Returned (s' : state)
  | Crashed
  | StillRunning.

Fixpoint destroy_loop_result (fuel : nat) (data : option A) (s : state)
    : loop_result :=
  if 0 <? dlist_size (dl s) then
    match fuel with
    | O => StillRunning
    | S fuel' =>
        match destroy_round data s with
        | Some (data', s') => destroy_loop_result fuel' data' s'
        | None => Crashed
        end
    end
  else Returned s.

End WithPayload.

Arguments DListElmt : clear implicits.
Arguments DList : clear implicits.
Arguments state : clear implicits.

Arguments op : clear implicits.

End DL.

(** ** Stores used in the examples *)

Module DLExamples.
Import DL.
Local Open Scope string_scope.
Local Open Scope positive_scope.

(** No element allocated and a list structure in the sentinel state. *)
Definition empty : state string := mkState ∅ sentinel [].

(** The empty store after [dlist_init] with a destructor and a matcher. *)
Definition initialized : state string :=
  mkState ∅ (mkDList 0%Z (Some 8) (Some 7) None None) [].

(** The list "A" in cell 1. *)
Definition one : state string :=
  mkState (<[1 := mkElmt "A" None None]> ∅)
          (mkDList 1%Z None None (Some 1) (Some 1)) [].

(** The list "A", "B" in the cells 1 and 2, with destructor 7. *)
Definition two : state string :=
  mkState (<[1 := mkElmt "A" None (Some 2)]> (<[2 := mkElmt "B" (Some 1) None]> ∅))
          (mkDList 2%Z None (Some 7) (Some 1) (Some 2)) [].

(** The list "A", "C", "B" in the cells 1, 3 and 2, with destructor 7. *)
Definition three : state string :=
  mkState (<[1 := mkElmt "A" None (Some 3)]>
           (<[3 := mkElmt "C" (Some 1) (Some 2)]>
            (<[2 := mkElmt "B" (Some 3) None]> ∅)))
          (mkDList 3%Z None (Some 7) (Some 1) (Some 2)) [].

(** The list "C", "B" in the cells 3 and 2, with destructor 7. *)
Definition c_b : state string :=
  mkState (<[3 := mkElmt "C" None (Some 2)]> (<[2 := mkElmt "B" (Some 3) None]> ∅))
          (mkDList 2%Z None (Some 7) (Some 3) (Some 2)) [].

(** The list "B" in cell 2, with destructor 7. *)
Definition only_b : state string :=
  mkState (<[2 := mkElmt "B" None None]> ∅)
          (mkDList 1%Z None (Some 7) (Some 2) (Some 2)) [].

(** Two cells where the second does not point back at the first. *)
Definition broken : state string :=
  mkState (<[1 := mkElmt "A" None (Some 2)]> (<[2 := mkElmt "B" None None]> ∅))
          (mkDList 2%Z None None (Some 1) (Some 2)) [].

(** A sequence of calls on an empty list: two insertions, a removal
    refused for want of an element, an insertion refused for want of
    an element, one refused by the allocator, and a removal. *)
Definition calls_example : list (op string) :=
  [InsertAfter None "A" (Some 1);
   InsertBefore (Some 1) "B" (Some 2);
   Remove None;
   InsertAfter None "C" (Some 3);
   InsertBefore (Some 2) "D" None;
   Remove (Some 1)].

(** The list "A", "B" in the cells 1 and 2 with no destructor, and a
    cell 9 that belongs to no list. *)
Definition with_spare_two : state string :=
  mkState (<[1 := mkElmt "A" None (Some 2)]>
           (<[2 := mkElmt "B" (Some 1) None]>
            (<[9 := mkElmt "Z" None None]> ∅)))
          (mkDList 2%Z None None (Some 1) (Some 2)) [].

(** A list structure that counts one element and has no tail. *)
Definition no_tail : state string :=
  mkState ∅ (mkDList 1%Z None None None None) [].

(** The same with "C" in cell 3 between "A" and "B". *)
Definition with_spare_three : state string :=
  mkState (<[1 := mkElmt "A" None (Some 3)]>
           (<[3 := mkElmt "C" (Some 1) (Some 2)]>
            (<[2 := mkElmt "B" (Some 3) None]>
             (<[9 := mkElmt "Z" None None]> ∅))))
          (mkDList 3%Z None None (Some 1) (Some 2)) [].

(** The list "A", "B" in the cells 1 and 2, and a second chain "Y",
    "Z" in the cells 8 and 9 that is no part of it. *)
Definition with_other_list : state string :=
  mkState (<[1 := mkElmt "A" None (Some 2)]>
           (<[2 := mkElmt "B" (Some 1) None]>
            (<[8 := mkElmt "Y" None (Some 9)]>
             (<[9 := mkElmt "Z" (Some 8) None]> ∅))))
          (mkDList 2%Z None None (Some 1) (Some 2)) [].

End DLExamples.

(** ** Excel sheet column numbers *)

Module Excel.

(** Arithmetic of the 32-bit [int]: results wrap around. *)
Definition int_wrap (z : Z) : Z := (z + 2 ^ 31) mod 2 ^ 32 - 2 ^ 31.

(** The value of a [char] promoted to [int].  Whether plain [char] is
    signed is left to the implementation; it is taken as signed.  The
    letters have the same value either way. *)
Definition char_to_int (c : ascii) : Z :=
  let n := Z.of_N (N_of_ascii c) in
  if 128 <=? n then n - 256 else n.

(** The body of the [for] loop over the characters that remain. *)
Fixpoint titleToNumber_loop (s : string) (result : Z) : Z :=
  match s with
  | EmptyString => result
  | String c s' =>
      titleToNumber_loop s'
        (int_wrap (int_wrap (result * 26)
                   + int_wrap (int_wrap (char_to_int c - char_to_int "A") + 1)))
  end.

(** [Solution::titleToNumber] *)
Definition titleToNumber (s : string) : Z := titleToNumber_loop s 0.

(** The characters ['A'] to ['Z']. *)
Definition is_upper (c : ascii) : Prop :=
  char_to_int "A" <= char_to_int c <= char_to_int "Z".

Fixpoint all_upper (s : string) : Prop :=
  match s with
  | EmptyString => True
  | String c s' => is_upper c ∧ all_upper s'
  end.

(** The bijective base-26 value in the words of the specification: the
    sum over the positions [i] of
    [(s[i] - 'A' + 1) * 26^(length(s) - 1 - i)]. *)
Fixpoint positional_sum (n : nat) (i : nat) (s : string) : Z :=
  match s with
  | EmptyString => 0
  | String c s' =>
      (char_to_int c - char_to_int "A" + 1) * 26 ^ (Z.of_nat n - 1 - Z.of_nat i)
      + positional_sum n (S i) s'
  end.

Definition bijective_base26 (s : string) : Z :=
  positional_sum (String.length s) 0 s.


(** The value of the loop in unbounded arithmetic: Horner's scheme
    started from [result]. *)
Fixpoint horner (s : string) (result : Z) : Z :=
  match s with
  | EmptyString => result
  | String c s' => horner s' (result * 26 + (char_to_int c - char_to_int "A" + 1))
  end.

(** [1 + 26 + ... + 26^(n-1)], the number of the title made of [n]
    letters ['A']. *)
Fixpoint repunit (n : nat) : Z :=
  match n with
  | O => 0
  | S n' => 26 * repunit n' + 1
  end.

End Excel.

(** * Properties of the doubly-linked list *)

Module DLTheory.
Import DL.
Local Open Scope dl_scope.

(** Unfolds the statements of an operation down to matches on the
    store. *)
Ltac unfold_stmt :=
  unfold dlist_ins_next, dlist_ins_prev, dlist_remove, dlist_init, memset_list,
    bind, ret, undefined, read_list, write_list, load, store, malloc_elmt, free, call,
    is_null, ptr_eqb in *.

(** Case analysis on every test an unfolded operation makes. *)
Set Warnings "-clear-no-such-hyp".

Ltac run_cases :=
  repeat (simplify_eq/=; try done; case_match).

(** Splits the facts [x ∉ l1 ++ y :: l2] of the context into their
    parts. *)
Ltac split_notin :=
  repeat match goal with
  | H : _ ∉ _ ++ _ |- _ => apply not_elem_of_app in H as [? ?]
  | H : _ ∉ _ :: _ |- _ => apply not_elem_of_cons in H as [? ?]
  end.

(** Solves [x ∉ l1 ++ y :: l2] from its parts. *)
Ltac solve_notin :=
  cbn [fst snd];
  rewrite ?not_elem_of_app, ?not_elem_of_cons, ?not_elem_of_nil;
  repeat split; solve [assumption | congruence].

Section WithPayload.
Context {A : Type}.
Implicit Types (s : state A) (h : gmap loc (DListElmt A))
  (p q element new_element : option loc)
  (els : list (loc * A)) (d : A).

(** ** Running the statements *)

Lemma bind_Some {R S} (m : M (state A) R) (k : R → M (state A) S) s r s' :
  bind m k s = Some (r, s') ↔ ∃ r1 s1, m s = Some (r1, s1) ∧ k r1 s1 = Some (r, s').
Proof.
  unfold bind. destruct (m s) as [[r1 s1]|]; naive_solver.
Qed.

(** ** What an operation does to [size] and to the trace *)

Lemma dlist_ins_next_size new_element element d s r s' :
  dlist_ins_next new_element element d s = Some (r, s') →
  (r = 0 ∨ r = -1) ∧
  dlist_size (dl s') = dlist_size (dl s) + (if r =? 0 then 1 else 0) ∧
  calls s' = calls s.
Proof.
  unfold_stmt. intros H. run_cases; simplify_eq/=; split_and!; auto with lia.
Qed.

Lemma dlist_ins_prev_size new_element element d s r s' :
  dlist_ins_prev new_element element d s = Some (r, s') →
  (r = 0 ∨ r = -1) ∧
  dlist_size (dl s') = dlist_size (dl s) + (if r =? 0 then 1 else 0) ∧
  calls s' = calls s.
Proof.
  unfold_stmt. intros H. run_cases; simplify_eq/=; split_and!; auto with lia.
Qed.

Lemma dlist_remove_size element s r s' :
  dlist_remove element s = Some (r, s') →
  (r.1 = 0 ∨ r.1 = -1) ∧
  dlist_size (dl s') = dlist_size (dl s) - (if r.1 =? 0 then 1 else 0) ∧
  calls s' = calls s.
Proof.
  unfold_stmt. intros H. run_cases; simplify_eq/=; split_and!; auto with lia.
Qed.

(** ** List segments *)

Lemma first_or_app els1 els2 q :
  first_or (els1 ++ els2) q = first_or els1 (first_or els2 q).
Proof. by destruct els1. Qed.

Lemma last_or_cons e els p :
  last_or (e :: els) p = last_or els (Some e.1).
Proof.
  unfold last_or. destruct els as [|e' els]; [done|].
  change (last (e :: e' :: els)) with (last (e' :: els)).
  by destruct (last (e' :: els)) eqn:E; [|apply last_None in E].
Qed.

Lemma last_or_app els1 els2 p :
  last_or (els1 ++ els2) p = last_or els2 (last_or els1 p).
Proof.
  revert p. induction els1 as [|e els1 IH]; intros p; [done|].
  simpl. by rewrite !last_or_cons, IH.
Qed.

Lemma last_or_snoc els e p : last_or (els ++ [e]) p = Some e.1.
Proof. by rewrite last_or_app. Qed.

Lemma dlseg_app h p els1 els2 q :
  dlseg h p (els1 ++ els2) q ↔
  dlseg h p els1 (first_or els2 q) ∧ dlseg h (last_or els1 p) els2 q.
Proof.
  revert p. induction els1 as [|e els1 IH]; intros p; simpl.
  - naive_solver.
  - rewrite IH, first_or_app, last_or_cons. naive_solver.
Qed.

(** Only the cells of the segment matter. *)
Lemma dlseg_frame h h' p els q :
  (∀ l, l ∈ els.*1 → h' !! l = h !! l) →
  dlseg h p els q → dlseg h' p els q.
Proof.
  revert p. induction els as [|e els IH]; intros p Hag; simpl; [done|].
  intros [He Hseg]. split.
  - rewrite Hag; [done|]. simpl. left.
  - apply IH; [|done]. intros l Hl. apply Hag. simpl. by right.
Qed.

Lemma dlseg_allocated h p els q l :
  dlseg h p els q → l ∈ els.*1 → is_Some (h !! l).
Proof.
  revert p. induction els as [|e els IH]; intros p; simpl.
  - intros _ Hl. by apply elem_of_nil in Hl.
  - intros [He Hseg] [->|Hl]%elem_of_cons; eauto.
Qed.

(** Redirecting the [prev] link of the first element. *)
Lemma dlseg_set_prev h p p' e els q :
  e.1 ∉ els.*1 →
  dlseg h p (e :: els) q →
  dlseg (<[e.1 := mkElmt e.2 p' (first_or els q)]> h) p' (e :: els) q.
Proof.
  simpl. intros Hne [He Hseg]. split; [by rewrite lookup_insert_eq|].
  eapply dlseg_frame; [|done].
  intros l Hl. rewrite lookup_insert_ne; [done|]. by intros <-.
Qed.

(** Redirecting the [next] link of the last element. *)
Lemma dlseg_set_next h p els e q q' :
  e.1 ∉ els.*1 →
  dlseg h p (els ++ [e]) q →
  dlseg (<[e.1 := mkElmt e.2 (last_or els p) q']> h) p (els ++ [e]) q'.
Proof.
  rewrite !dlseg_app. simpl. intros Hne (Hseg & He & _).
  split_and!; [|by rewrite lookup_insert_eq|done].
  eapply dlseg_frame; [|done].
  intros l Hl. rewrite lookup_insert_ne; [done|]. by intros <-.
Qed.

Lemma dlseg_insert h p els q l n :
  l ∉ els.*1 → dlseg h p els q → dlseg (<[l := n]> h) p els q.
Proof.
  intros Hl. apply dlseg_frame. intros l' Hl'.
  apply lookup_insert_ne. by intros ->.
Qed.

Lemma dlseg_delete h p els q l :
  l ∉ els.*1 → dlseg h p els q → dlseg (delete l h) p els q.
Proof.
  intros Hl. apply dlseg_frame. intros l' Hl'.
  apply lookup_delete_ne. by intros ->.
Qed.

Lemma NoDup_middle (l1 l2 : list loc) (x : loc) :
  NoDup (l1 ++ x :: l2) ↔ (x ∉ l1 ++ l2) ∧ NoDup (l1 ++ l2).
Proof. by rewrite <- NoDup_cons, Permutation_middle. Qed.

(** ** Scans of a segment *)

Lemma scan_next_dlseg fuel h p els :
  (length els ≤ fuel)%nat →
  dlseg h p els None →
  scan_next fuel h (first_or els None) = Some els.*1.
Proof.
  revert fuel p. induction els as [|e els IH]; intros fuel p Hf; simpl;
    [by destruct fuel|].
  intros [He Hseg]. destruct fuel as [|fuel]; [simpl in Hf; lia|].
  simpl. rewrite He. simpl. rewrite (IH fuel (Some e.1)); [done| simpl in Hf; lia | done].
Qed.

Lemma scan_prev_dlseg fuel h els q :
  (length els ≤ fuel)%nat →
  dlseg h None els q →
  scan_prev fuel h (last_or els None) = Some (reverse els.*1).
Proof.
  revert fuel q. induction els as [|e els IH] using rev_ind; intros fuel q Hf;
    [by destruct fuel|].
  rewrite dlseg_app, last_or_snoc, fmap_app, reverse_app. simpl.
  intros (Hseg & He & _). rewrite length_app in Hf. simpl in Hf.
  destruct fuel as [|fuel]; [lia|].
  simpl. rewrite He. simpl. rewrite (IH fuel (Some e.1)); [done| lia | done].
Qed.

Lemma scan_next_fuel fuel1 fuel2 h p fs1 fs2 :
  scan_next fuel1 h p = Some fs1 → scan_next fuel2 h p = Some fs2 → fs1 = fs2.
Proof.
  revert fuel2 p fs1 fs2. induction fuel1 as [|fuel1 IH]; intros fuel2 p fs1 fs2.
  - destruct p, fuel2; simpl; intros; simplify_eq; done.
  - destruct p as [l|]; [|destruct fuel2; simpl; intros; by simplify_eq].
    destruct fuel2 as [|fuel2]; [done|]. simpl.
    destruct (h !! l) as [n|]; [|done].
    destruct (scan_next fuel1 h (dlist_next n)) as [r1|] eqn:E1; [|done].
    destruct (scan_next fuel2 h (dlist_next n)) as [r2|] eqn:E2; [|done].
    simpl. intros; simplify_eq. f_equal. eauto.
Qed.

(** A segment that ends in [NULL] has no repeated element: a repeated
    one would start two scans of different lengths. *)
Lemma dlseg_NoDup h p els : dlseg h p els None → NoDup els.*1.
Proof.
  revert p. induction els as [|e els IH]; intros p; simpl; [constructor|].
  intros [He Hseg]. constructor; [|by eapply IH].
  intros (els1 & els2' & Heq)%list_elem_of_split.
  apply fmap_app_inv in Heq as (a & b' & Ha & Hb & ->).
  destruct b' as [|e' b]; [done|]. simpl in Hb. injection Hb as He' Hb.
  pose proof Hseg as Hseg'.
  apply dlseg_app in Hseg' as (_ & He2 & Hseg2). simpl in He2, Hseg2.
  assert (H1 : scan_next (S (length (a ++ e' :: b))) h (Some e.1)
               = Some (e.1 :: (a ++ e' :: b).*1)).
  { apply (scan_next_dlseg _ h p (e :: a ++ e' :: b)); simpl; [lia|done]. }
  assert (H2 : scan_next (S (length b)) h (Some e'.1) = Some (e'.1 :: b.*1)).
  { apply (scan_next_dlseg _ h (last_or a (Some e.1)) (e' :: b)); simpl; [lia|done]. }
  rewrite <- He' in H2.
  pose proof (scan_next_fuel _ _ _ _ _ _ H1 H2) as Heq.
  apply (f_equal length) in Heq. simpl in Heq.
  rewrite !length_fmap, length_app in Heq. simpl in Heq. lia.
Qed.

(** ** The operations on a represented list *)

Lemma dl_repr_allocated s els l :
  dl_repr s els → l ∈ els.*1 → is_Some (heap s !! l).
Proof. intros (_ & _ & _ & Hseg & _). by eapply dlseg_allocated. Qed.

Lemma dl_repr_fresh s els l :
  dl_repr s els → heap s !! l = None → l ∉ els.*1.
Proof.
  intros Hr Hl Hin. destruct (dl_repr_allocated _ _ _ Hr Hin) as [n Hn]. congruence.
Qed.

(** Insertion into the empty list, whatever [element] is. *)
Lemma dlist_ins_next_empty s ne element d :
  dlist_size (dl s) = 0 →
  dlist_ins_next (Some ne) element d s
  = Some (0, mkState (<[ne := mkElmt d None None]> (heap s))
                     (mkDList 1 (dlist_match (dl s)) (destroy (dl s)) (Some ne) (Some ne))
                     (calls s)).
Proof.
  intros Hsz. unfold_stmt.
  repeat (progress (simpl; rewrite ?Hsz, ?andb_false_r, ?lookup_insert_eq)).
  by rewrite !insert_insert_eq.
Qed.

Lemma dlist_ins_prev_empty s ne element d :
  dlist_size (dl s) = 0 →
  dlist_ins_prev (Some ne) element d s
  = Some (0, mkState (<[ne := mkElmt d None None]> (heap s))
                     (mkDList 1 (dlist_match (dl s)) (destroy (dl s)) (Some ne) (Some ne))
                     (calls s)).
Proof.
  intros Hsz. unfold_stmt.
  repeat (progress (simpl; rewrite ?Hsz, ?andb_false_r, ?lookup_insert_eq)).
  by rewrite !insert_insert_eq.
Qed.

(** Solves a goal on the domain of a store after updates of the cells
    [H1], [H2], [H3] say are allocated. *)
Ltac solve_dom H1 H2 H3 :=
  simpl; rewrite ?dom_delete_L, ?dom_insert_L;
  pose proof (elem_of_dom_2 _ _ _ H1);
  pose proof (elem_of_dom_2 _ _ _ H2);
  pose proof (elem_of_dom_2 _ _ _ H3);
  repeat match goal with
  | H : ?P |- _ =>
      lazymatch P with
      | _ ∈ dom _ => fail
      | _ => clear H
      end
  end;
  set_solver.

(** Runs an unfolded operation: simplifies, rewrites with the facts
    [tac] knows about the cells and tests of this run, and resolves
    the lookups in updated stores. *)
Ltac run_using tac :=
  repeat (progress (simpl; tac; rewrite ?lookup_insert_eq;
                    rewrite ?lookup_insert_ne by congruence)).

Lemma dlist_ins_next_repr s a e b ne d :
  dl_repr s (a ++ e :: b) → heap s !! ne = None →
  ∃ s', dlist_ins_next (Some ne) (Some e.1) d s = Some (0, s') ∧
        dl_repr s' (a ++ e :: (ne, d) :: b) ∧
        calls s' = calls s ∧
        dlist_match (dl s') = dlist_match (dl s) ∧
        destroy (dl s') = destroy (dl s) ∧
        dom (heap s') = {[ne]} ∪ dom (heap s).
Proof.
  intros Hr Hfresh.
  pose proof (dl_repr_fresh _ _ _ Hr Hfresh) as Hnotin.
  destruct Hr as (Hsz & Hhd & Htl & Hseg & Hnd).
  rewrite fmap_app, fmap_cons in Hnotin, Hnd.
  apply NoDup_middle in Hnd as [He_ab Hnd].
  apply dlseg_app in Hseg as (Hsega & He & Hsegb). simpl in He, Hsegb.
  assert (Hsz0 : (dlist_size (dl s) =? 0) = false).
  { apply Z.eqb_neq. rewrite Hsz, length_app. simpl. lia. }
  unfold_stmt.
  destruct b as [|x b].
  - split_notin. run_using ltac:(rewrite ?Hsz0, ?He).
    eexists. split; [done|]. split_and!; try done; [|solve_dom He He He]. simpl.
    unfold dl_repr. simpl. split_and!.
    + rewrite Hsz, !length_app. simpl. lia.
    + rewrite Hhd, !first_or_app. done.
    + by rewrite (last_or_app a [e; (ne, d)]).
    + apply dlseg_app. split; [|simpl; split_and!; [| |done]].
      * by do 4 (apply dlseg_insert; [done|]).
      * by rewrite lookup_insert_eq.
      * rewrite lookup_insert_ne by congruence. by rewrite lookup_insert_eq.
    + rewrite fmap_app, !fmap_cons. apply NoDup_middle. split; [solve_notin|].
      apply NoDup_middle. by split; [solve_notin|].
  - simpl in Hsegb. destruct Hsegb as [Hx Hsegb].
    rewrite fmap_cons in He_ab, Hnd, Hnotin.
    apply NoDup_middle in Hnd as [Hx_ab Hnd].
    split_notin. run_using ltac:(rewrite ?Hsz0, ?He, ?Hx).
    eexists. split; [done|]. split_and!; try done; [|solve_dom He Hx Hx]. simpl.
    unfold dl_repr. simpl. split_and!.
    + rewrite Hsz, !length_app. simpl. lia.
    + rewrite Hhd, !first_or_app. done.
    + rewrite Htl. by rewrite (last_or_app a (e :: x :: b)), (last_or_app a (e :: (ne, d) :: x :: b)), !last_or_cons.
    + apply dlseg_app. split; [|simpl; split_and!].
      * by do 5 (apply dlseg_insert; [done|]).
      * by rewrite lookup_insert_eq.
      * do 2 (rewrite lookup_insert_ne by congruence). by rewrite lookup_insert_eq.
      * rewrite lookup_insert_ne by congruence. by rewrite lookup_insert_eq.
      * by do 5 (apply dlseg_insert; [done|]).
    + rewrite fmap_app, !fmap_cons.
      do 3 (apply NoDup_middle; split; [solve_notin|]). done.
Qed.

Lemma dlist_ins_prev_repr s a e b ne d :
  dl_repr s (a ++ e :: b) → heap s !! ne = None →
  ∃ s', dlist_ins_prev (Some ne) (Some e.1) d s = Some (0, s') ∧
        dl_repr s' (a ++ (ne, d) :: e :: b) ∧
        calls s' = calls s ∧
        dlist_match (dl s') = dlist_match (dl s) ∧
        destroy (dl s') = destroy (dl s) ∧
        dom (heap s') = {[ne]} ∪ dom (heap s).
Proof.
  intros Hr Hfresh.
  pose proof (dl_repr_fresh _ _ _ Hr Hfresh) as Hnotin.
  destruct Hr as (Hsz & Hhd & Htl & Hseg & Hnd).
  rewrite fmap_app, fmap_cons in Hnotin, Hnd.
  apply NoDup_middle in Hnd as [He_ab Hnd].
  apply dlseg_app in Hseg as (Hsega & He & Hsegb). simpl in He, Hsegb.
  assert (Hsz0 : (dlist_size (dl s) =? 0) = false).
  { apply Z.eqb_neq. rewrite Hsz, length_app. simpl. lia. }
  unfold_stmt.
  destruct a as [|y a _] using rev_ind.
  - split_notin. run_using ltac:(rewrite ?Hsz0, ?He).
    eexists. split; [done|]. split_and!; try done; [|solve_dom He He He]. simpl.
    unfold dl_repr. simpl. split_and!.
    + rewrite Hsz. simpl. lia.
    + done.
    + rewrite Htl. simpl. by rewrite !last_or_cons.
    + rewrite lookup_insert_ne by congruence. by rewrite lookup_insert_eq.
    + by rewrite lookup_insert_eq.
    + by do 4 (apply dlseg_insert; [done|]).
    + do 2 (apply (NoDup_middle []); split; [simpl; solve_notin|]). done.
  - apply dlseg_app in Hsega as (Hsega & Hy & _). simpl in Hy.
    rewrite fmap_app in He_ab, Hnd, Hnotin. simpl in He_ab, Hnd, Hnotin.
    rewrite <- (assoc_L (++)) in Hnd. apply NoDup_middle in Hnd as [Hy_ab Hnd].
    rewrite last_or_snoc in *.
    split_notin. run_using ltac:(rewrite ?Hsz0, ?He, ?Hy).
    eexists. split; [done|]. split_and!; try done; [|solve_dom He Hy Hy]. simpl.
    unfold dl_repr. simpl. split_and!.
    + rewrite Hsz, !length_app. simpl. lia.
    + rewrite Hhd, !first_or_app. done.
    + rewrite Htl. by rewrite (last_or_app _ (e :: b)), (last_or_app _ ((ne, d) :: e :: b)), !last_or_cons.
    + rewrite <- (assoc_L (++)). apply dlseg_app. split; [|simpl; split_and!].
      * by do 5 (apply dlseg_insert; [done|]).
      * rewrite lookup_insert_ne by congruence. by rewrite lookup_insert_eq.
      * do 2 (rewrite lookup_insert_ne by congruence). by rewrite lookup_insert_eq.
      * by rewrite lookup_insert_eq.
      * by do 5 (apply dlseg_insert; [done|]).
    + rewrite !fmap_app, !fmap_cons. simpl. rewrite <- (assoc_L (++)). simpl.
      do 3 (apply NoDup_middle; split; [solve_notin|]). done.
Qed.

Lemma first_or_elem els q :
  els ≠ [] → ∃ l, first_or els q = Some l ∧ l ∈ els.*1.
Proof.
  destruct els as [|e els]; [done|]. intros _. exists e.1. split; [done|].
  rewrite fmap_cons. left.
Qed.

Lemma dlist_remove_repr s a e b :
  dl_repr s (a ++ e :: b) →
  ∃ s', dlist_remove (Some e.1) s = Some ((0, Some e.2), s') ∧
        dl_repr s' (a ++ b) ∧
        calls s' = calls s ∧
        dlist_match (dl s') = dlist_match (dl s) ∧
        destroy (dl s') = destroy (dl s) ∧
        dom (heap s') = dom (heap s) ∖ {[e.1]}.
Proof.
  intros (Hsz & Hhd & Htl & Hseg & Hnd).
  rewrite fmap_app, fmap_cons in Hnd.
  apply NoDup_middle in Hnd as [He_ab Hnd].
  apply dlseg_app in Hseg as (Hsega & He & Hsegb). simpl in He, Hsegb.
  assert (Hsz0 : (dlist_size (dl s) =? 0) = false).
  { apply Z.eqb_neq. rewrite Hsz, length_app. simpl. lia. }
  rewrite first_or_app in Hhd. simpl in Hhd.
  unfold_stmt.
  destruct a as [|y a _] using rev_ind.
  - simpl in Hhd.
    assert (Hbd : bool_decide (Some e.1 = dlist_head (dl s)) = true)
      by (by apply bool_decide_eq_true_2).
    destruct b as [|x b].
    + run_using ltac:(rewrite ?Hsz0, ?Hbd, ?He).
      eexists. split; [done|]. split_and!; try done; simpl.
      * unfold dl_repr. simpl. split_and!; try done; try by constructor.
        rewrite Hsz. simpl. lia.
      * solve_dom He He He.
    + simpl in Hsegb. destruct Hsegb as [Hx Hsegb].
      simpl in Hnd, He_ab. apply (NoDup_middle []) in Hnd as [Hx_b Hnd].
      simpl in Hx_b. split_notin.
      run_using ltac:(rewrite ?Hsz0, ?Hbd, ?He, ?Hx).
      eexists. split; [done|]. split_and!; try done; simpl.
      * unfold dl_repr. simpl. split_and!.
        -- rewrite Hsz. simpl. lia.
        -- done.
        -- rewrite Htl. simpl. by rewrite !last_or_cons.
        -- rewrite lookup_delete_ne by congruence. by rewrite lookup_insert_eq.
        -- apply dlseg_delete; [done|]. by apply dlseg_insert.
        -- apply (NoDup_middle []). by split.
      * solve_dom He Hx Hx.
  - apply dlseg_app in Hsega as (Hsega & Hy & _). simpl in Hy.
    rewrite fmap_app in He_ab, Hnd. simpl in He_ab, Hnd.
    rewrite <- (assoc_L (++)) in Hnd. apply NoDup_middle in Hnd as [Hy_ab Hnd].
    assert (Hbd : bool_decide (Some e.1 = dlist_head (dl s)) = false).
    { apply bool_decide_eq_false_2. rewrite Hhd.
      destruct (first_or_elem (a ++ [y]) (Some e.1)) as (l & -> & Hl);
        [by destruct a|].
      intros [= <-]. rewrite fmap_app in Hl. simpl in Hl.
      apply not_elem_of_app in He_ab as [He_ab _]. done. }
    rewrite last_or_snoc in *.
    destruct b as [|x b].
    + split_notin.
      run_using ltac:(rewrite ?Hsz0, ?Hbd, ?He, ?Hy).
      eexists. split; [done|]. split_and!; try done; simpl.
      * unfold dl_repr. simpl. rewrite !app_nil_r. split_and!.
        -- rewrite Hsz, !length_app. simpl. lia.
        -- rewrite Hhd, !first_or_app. by destruct a.
        -- by rewrite last_or_snoc.
        -- apply dlseg_app. split; [|simpl; split; [|done]].
           ++ apply dlseg_delete; [done|]. by apply dlseg_insert.
           ++ rewrite lookup_delete_ne by congruence. by rewrite lookup_insert_eq.
        -- rewrite fmap_app. simpl. apply NoDup_middle. split; [solve_notin|].
           by rewrite !app_nil_r in *.
      * solve_dom He Hy Hy.
    + simpl in Hsegb. destruct Hsegb as [Hx Hsegb].
      simpl in Hnd, He_ab, Hy_ab. apply NoDup_middle in Hnd as [Hx_ab Hnd].
      split_notin.
      run_using ltac:(rewrite ?Hsz0, ?Hbd, ?He, ?Hy, ?Hx).
      eexists. split; [done|]. split_and!; try done; simpl.
      * unfold dl_repr. simpl. split_and!.
        -- rewrite Hsz, !length_app. simpl. lia.
        -- rewrite Hhd, !first_or_app. by destruct a.
        -- rewrite Htl. by rewrite !last_or_app, !last_or_cons.
        -- rewrite <- (assoc_L (++)). apply dlseg_app. split; [|simpl; split_and!].
           ++ apply dlseg_delete; [done|]. by do 2 (apply dlseg_insert; [done|]).
           ++ rewrite lookup_delete_ne by congruence.
              rewrite lookup_insert_ne by congruence. by rewrite lookup_insert_eq.
           ++ rewrite lookup_delete_ne by congruence. by rewrite lookup_insert_eq.
           ++ apply dlseg_delete; [done|]. by do 2 (apply dlseg_insert; [done|]).
        -- rewrite !fmap_app, !fmap_cons. simpl. rewrite <- (assoc_L (++)). simpl.
           do 2 (apply NoDup_middle; split; [solve_notin|]). done.
      * solve_dom He Hy Hx.
Qed.

(** ** The invariants and the abstract contents *)

Lemma dl_repr_forward_scan s els :
  dl_repr s els → forward_scan s = Some els.*1.
Proof.
  intros (Hsz & Hhd & Htl & Hseg & Hnd). unfold forward_scan.
  rewrite Hsz, Hhd, Nat2Z.id. by eapply scan_next_dlseg.
Qed.

Lemma dl_repr_backward_scan s els :
  dl_repr s els → backward_scan s = Some (reverse els.*1).
Proof.
  intros (Hsz & Hhd & Htl & Hseg & Hnd). unfold backward_scan.
  rewrite Hsz, Htl, Nat2Z.id. by eapply scan_prev_dlseg.
Qed.

Lemma dl_repr_members s els : dl_repr s els → dlist_members s = els.*1.
Proof.
  intros Hr. unfold dlist_members. by rewrite (dl_repr_forward_scan s els).
Qed.

Lemma dlseg_links_ok h els l :
  dlseg h None els None → l ∈ els.*1 → links_ok h l.
Proof.
  intros Hseg (l1 & l2 & Heq)%list_elem_of_split.
  apply fmap_app_inv in Heq as (a & b' & Ha & Hb & ->).
  destruct b' as [|e b]; [done|]. simpl in Hb. injection Hb as -> Hb.
  apply dlseg_app in Hseg as (Hsega & He & Hsegb). simpl in He, Hsegb.
  unfold links_ok. rewrite He. simpl. split.
  - destruct b as [|x b]; [done|]. simpl in *. destruct Hsegb as [-> _]. done.
  - destruct a as [|y a _] using rev_ind; [done|].
    rewrite last_or_snoc. apply dlseg_app in Hsega as (_ & -> & _). done.
Qed.

Lemma dl_repr_invariants s els : dl_repr s els → dlist_invariants s.
Proof.
  intros Hr. pose proof (dl_repr_forward_scan _ _ Hr) as Hfs.
  pose proof (dl_repr_backward_scan _ _ Hr) as Hbs.
  destruct Hr as (Hsz & Hhd & Htl & Hseg & Hnd).
  unfold dlist_invariants. rewrite Hfs, Hbs, Hsz, Hhd, Htl. split_and!.
  - destruct els as [|e els]; [done|].
    rewrite last_or_cons. simpl. split; [lia|]. by intros [? _].
  - destruct els as [|e els]; [done|]. intros _. simpl in *.
    destruct Hseg as [-> _]. done.
  - destruct els as [|e els _] using rev_ind; [done|]. intros _.
    rewrite last_or_snoc. apply dlseg_app in Hseg as (_ & He & _).
    simpl in *. by rewrite He.
  - by rewrite length_fmap.
  - by rewrite length_reverse, length_fmap.
  - apply Forall_forall. intros l Hl. by apply elem_of_reverse.
  - apply Forall_forall. intros l Hl. by rewrite elem_of_reverse in Hl.
  - apply Forall_forall. intros l Hl. by eapply dlseg_links_ok.
Qed.

Lemma scan_next_None fuel h : scan_next fuel h None = Some [].
Proof. by destruct fuel. Qed.

Lemma scan_prev_None fuel h : scan_prev fuel h None = Some [].
Proof. by destruct fuel. Qed.

(** A forward scan over elements with consistent links finds a
    segment. *)
Lemma scan_next_inv fuel h : ∀ l pp fs,
  scan_next fuel h (Some l) = Some fs →
  field_of h (Some l) dlist_prev = Some pp →
  Forall (links_ok h) fs →
  ∃ els, els.*1 = fs ∧ first_or els None = Some l ∧ dlseg h pp els None.
Proof.
  induction fuel as [|fuel IH]; intros l pp fs; [done|]. simpl.
  destruct (h !! l) as [[d pr nx]|] eqn:Hl; [|done]. simpl.
  destruct (scan_next fuel h nx) as [fs'|] eqn:Hscan; [|done]. simpl.
  intros [= <-] [= <-] Hlinks. apply Forall_cons in Hlinks as [Hlink Hlinks].
  destruct nx as [x|].
  - unfold links_ok in Hlink. rewrite Hl in Hlink. simpl in Hlink.
    destruct Hlink as [Hx _].
    destruct (IH x (Some l) fs' Hscan Hx Hlinks) as (els & <- & Hfirst & Hseg).
    exists ((l, d) :: els). simpl. by rewrite Hfirst.
  - rewrite scan_next_None in Hscan. injection Hscan as <-.
    by exists [(l, d)].
Qed.

Lemma scan_prev_first fuel h l bs :
  scan_prev fuel h (Some l) = Some bs → l ∈ bs.
Proof.
  destruct fuel as [|fuel]; [done|]. simpl.
  destruct (h !! l); [|done]. destruct (scan_prev fuel h _); [|done].
  simpl. intros [= <-]. left.
Qed.

Lemma dlist_invariants_repr s : dlist_invariants s → ∃ els, dl_repr s els.
Proof.
  intros (Hz & Hhead & Htail & Hscans).
  destruct (forward_scan s) as [fs|] eqn:Hfs; [|done].
  destruct (backward_scan s) as [bs|] eqn:Hbs; [|done].
  destruct Hscans as (Hlf & Hlb & Hfb & Hbf & Hlinks).
  unfold forward_scan, backward_scan in *.
  destruct (dlist_head (dl s)) as [l|] eqn:Hhd.
  - specialize (Hhead eq_refl).
    destruct (scan_next_inv _ _ _ _ _ Hfs Hhead Hlinks) as (els & <- & Hfirst & Hseg).
    exists els. rewrite length_fmap in Hlf.
    assert (Hnd : NoDup els.*1) by (by eapply dlseg_NoDup).
    unfold dl_repr. rewrite Hhd. split_and!; try done.
    destruct (dlist_tail (dl s)) as [t|] eqn:Htl.
    + specialize (Htail eq_refl).
      pose proof (scan_prev_first _ _ _ _ Hbs) as Ht.
      rewrite Forall_forall in Hbf. apply Hbf in Ht.
      apply list_elem_of_split in Ht as (l1 & l2 & Heq).
      apply fmap_app_inv in Heq as (a & b' & Ha & Hb & ->).
      destruct b' as [|e b]; [done|]. simpl in Hb. injection Hb as -> Hb.
      apply dlseg_app in Hseg as (_ & He & _). simpl in He, Htail.
      rewrite He in Htail. simpl in Htail. injection Htail as Hnext.
      destruct b; [|done]. by rewrite last_or_snoc.
    + rewrite scan_prev_None in Hbs. injection Hbs as <-. simpl in Hlb.
      destruct els; [done|]. simpl in Hlf. lia.
  - rewrite scan_next_None in Hfs. injection Hfs as <-. simpl in Hlf.
    exists []. unfold dl_repr. rewrite Hhd. split_and!; try done; [|constructor].
    symmetry in Hlf. by apply Hz in Hlf as [_ ->].
Qed.

(** ** When the operations fail *)

Lemma dlist_ins_next_fail s new_element element d :
  ins_failure s new_element element →
  dlist_ins_next new_element element d s = Some (-1, s).
Proof.
  unfold ins_failure, dlist_ins_next, bind, read_list, ret, malloc_elmt, is_null.
  intros [[-> Hsz]| ->].
  - apply Z.eqb_neq in Hsz. by rewrite Hsz.
  - by destruct element, (dlist_size (dl s) =? 0).
Qed.

Lemma dlist_ins_prev_fail s new_element element d :
  ins_failure s new_element element →
  dlist_ins_prev new_element element d s = Some (-1, s).
Proof.
  unfold ins_failure, dlist_ins_prev, bind, read_list, ret, malloc_elmt, is_null.
  intros [[-> Hsz]| ->].
  - apply Z.eqb_neq in Hsz. by rewrite Hsz.
  - by destruct element, (dlist_size (dl s) =? 0).
Qed.

Lemma dlist_remove_fail s element :
  remove_failure s element →
  dlist_remove element s = Some ((-1, None), s).
Proof.
  unfold remove_failure, dlist_remove, bind, read_list, ret, is_null.
  intros [-> |Hsz]; [done|]. rewrite Hsz. by destruct element.
Qed.

Lemma dlist_ins_next_ret s new_element element d r s' :
  dlist_ins_next new_element element d s = Some (r, s') →
  (r = -1 ∧ s' = s ∧ ins_failure s new_element element) ∨
  (r = 0 ∧ ¬ ins_failure s new_element element).
Proof.
  destruct (decide (element = None ∧ dlist_size (dl s) ≠ 0)) as [Hf|Hf].
  { rewrite dlist_ins_next_fail by (by left). intros [= <- <-]. left. split_and!; [done..|by left]. }
  destruct new_element as [ne|].
  2:{ rewrite dlist_ins_next_fail by (by right). intros [= <- <-]. left. split_and!; [done..|by right]. }
  intros Hrun. right. split; [|by intros [?|?]].
  revert Hrun. unfold_stmt. intros Hrun. run_cases.
  all: destruct Hf; split; [done|]; by apply Z.eqb_neq, negb_true_iff.
Qed.

Lemma dlist_ins_prev_ret s new_element element d r s' :
  dlist_ins_prev new_element element d s = Some (r, s') →
  (r = -1 ∧ s' = s ∧ ins_failure s new_element element) ∨
  (r = 0 ∧ ¬ ins_failure s new_element element).
Proof.
  destruct (decide (element = None ∧ dlist_size (dl s) ≠ 0)) as [Hf|Hf].
  { rewrite dlist_ins_prev_fail by (by left). intros [= <- <-]. left. split_and!; [done..|by left]. }
  destruct new_element as [ne|].
  2:{ rewrite dlist_ins_prev_fail by (by right). intros [= <- <-]. left. split_and!; [done..|by right]. }
  intros Hrun. right. split; [|by intros [?|?]].
  revert Hrun. unfold_stmt. intros Hrun. run_cases.
  all: destruct Hf; split; [done|]; by apply Z.eqb_neq, negb_true_iff.
Qed.

Lemma dlist_remove_ret s element r s' :
  dlist_remove element s = Some (r, s') →
  (r = (-1, None) ∧ s' = s ∧ remove_failure s element) ∨
  (∃ l n, r = (0, Some (dlist_data n)) ∧ element = Some l ∧ heap s !! l = Some n ∧
          ¬ remove_failure s element).
Proof.
  destruct (decide (element = None ∨ dlist_size (dl s) = 0)) as [Hf|Hf].
  { rewrite dlist_remove_fail by done. intros [= <- <-]. by left. }
  intros Hrun. right. destruct element as [l|]; [|by destruct Hf; left].
  assert (Hsz0 : (dlist_size (dl s) =? 0) = false)
    by (apply Z.eqb_neq; intros ?; apply Hf; by right).
  revert Hrun. unfold_stmt. rewrite Hsz0. simpl. intros Hrun.
  destruct (heap s !! l) as [n|] eqn:Hl; [|done].
  exists l, n. split_and!; try done.
  run_cases.
Qed.

(** ** Success on well-formed lists *)

Lemma dl_repr_size_0 s els : dl_repr s els → dlist_size (dl s) = 0 → els = [].
Proof. intros (Hsz & _) H0. destruct els; [done|]. simpl in Hsz. lia. Qed.

Lemma valid_element_split s els l :
  dl_repr s els → l ∈ dlist_members s → ∃ a d b, els = a ++ (l, d) :: b.
Proof.
  intros Hr. rewrite (dl_repr_members _ _ Hr).
  intros (l1 & l2 & Heq)%list_elem_of_split.
  apply fmap_app_inv in Heq as (a & b' & Ha & Hb & ->).
  destruct b' as [|[l' d] b]; [done|]. simpl in Hb. injection Hb as -> Hb.
  by exists a, d, b.
Qed.

Lemma dlist_ins_next_ok s els new_element element d :
  dl_repr s els →
  (dlist_size (dl s) ≠ 0 → valid_element s element) →
  fresh s new_element →
  ¬ ins_failure s new_element element →
  ∃ s' els', dlist_ins_next new_element element d s = Some (0, s') ∧
             dl_repr s' els' ∧ calls s' = calls s ∧
             dlist_match (dl s') = dlist_match (dl s) ∧
             destroy (dl s') = destroy (dl s).
Proof.
  intros Hr Hval Hfresh Hnf.
  destruct new_element as [ne|]; [|by destruct Hnf; right]. simpl in Hfresh.
  destruct (decide (dlist_size (dl s) = 0)) as [Hsz|Hsz].
  - rewrite dlist_ins_next_empty by done.
    eexists _, [(ne, d)]. split; [done|]. split_and!; try done.
    unfold dl_repr. simpl. split_and!; try done.
    + by rewrite lookup_insert_eq.
    + apply NoDup_singleton.
  - destruct element as [l|]; [|by destruct Hnf; left].
    destruct (valid_element_split _ _ _ Hr (Hval Hsz)) as (a & dl & b & ->).
    destruct (dlist_ins_next_repr s a (l, dl) b ne d Hr Hfresh) as (s' & Hrun & Hr' & ? & ? & ? & _).
    by exists s', (a ++ (l, dl) :: (ne, d) :: b).
Qed.

Lemma dlist_ins_prev_ok s els new_element element d :
  dl_repr s els →
  (dlist_size (dl s) ≠ 0 → valid_element s element) →
  fresh s new_element →
  ¬ ins_failure s new_element element →
  ∃ s' els', dlist_ins_prev new_element element d s = Some (0, s') ∧
             dl_repr s' els' ∧ calls s' = calls s ∧
             dlist_match (dl s') = dlist_match (dl s) ∧
             destroy (dl s') = destroy (dl s).
Proof.
  intros Hr Hval Hfresh Hnf.
  destruct new_element as [ne|]; [|by destruct Hnf; right]. simpl in Hfresh.
  destruct (decide (dlist_size (dl s) = 0)) as [Hsz|Hsz].
  - rewrite dlist_ins_prev_empty by done.
    eexists _, [(ne, d)]. split; [done|]. split_and!; try done.
    unfold dl_repr. simpl. split_and!; try done.
    + by rewrite lookup_insert_eq.
    + apply NoDup_singleton.
  - destruct element as [l|]; [|by destruct Hnf; left].
    destruct (valid_element_split _ _ _ Hr (Hval Hsz)) as (a & dl & b & ->).
    destruct (dlist_ins_prev_repr s a (l, dl) b ne d Hr Hfresh) as (s' & Hrun & Hr' & ? & ? & ? & _).
    by exists s', (a ++ (ne, d) :: (l, dl) :: b).
Qed.

Lemma dlist_remove_ok s els element :
  dl_repr s els →
  valid_element s element →
  ¬ remove_failure s element →
  ∃ d s' els', dlist_remove element s = Some ((0, Some d), s') ∧
               dl_repr s' els' ∧ calls s' = calls s ∧
               dlist_match (dl s') = dlist_match (dl s) ∧
               destroy (dl s') = destroy (dl s).
Proof.
  intros Hr Hval Hnf.
  destruct element as [l|]; [|by destruct Hnf; left]. simpl in Hval.
  destruct (valid_element_split _ _ _ Hr Hval) as (a & d & b & ->).
  destruct (dlist_remove_repr s a (l, d) b Hr) as (s' & Hrun & Hr' & ? & ? & ? & _).
  by exists d, s', (a ++ b).
Qed.

(** An operation called under [op_ok] on a represented list has a
    defined result; when it returns 0 the new store represents a list
    again, otherwise it returns -1 and the store is the old one. *)
Lemma step_repr s els o :
  dl_repr s els → op_ok s o →
  ∃ r s', step o s = Some (r, s') ∧
          ((r = 0 ∧ ∃ els', dl_repr s' els') ∨ (r = -1 ∧ s' = s)).
Proof.
  intros Hr Hok. destruct o as [element d new_element|element d new_element|element];
    simpl in *.
  - destruct Hok as [Hval Hfresh].
    destruct (decide (ins_failure s new_element element)) as [Hf|Hf].
    + rewrite dlist_ins_next_fail by done. eauto 10.
    + destruct (dlist_ins_next_ok s els new_element element d) as (s' & els' & -> & ? & _);
        eauto 10.
  - destruct Hok as [Hval Hfresh].
    destruct (decide (ins_failure s new_element element)) as [Hf|Hf].
    + rewrite dlist_ins_prev_fail by done. eauto 10.
    + destruct (dlist_ins_prev_ok s els new_element element d) as (s' & els' & -> & ? & _);
        eauto 10.
  - unfold bind, ret.
    destruct (decide (remove_failure s element)) as [Hf|Hf].
    + rewrite dlist_remove_fail by done. eauto 10.
    + destruct (dlist_remove_ok s els element) as (d & s' & els' & -> & ? & _);
        eauto 10.
Qed.

(** C1 (amended): after a successful InsertAfter, InsertBefore or
    Remove on a list that satisfies the structural invariants, called
    with none or a member of the list as [element] (any [element] for
    an insertion into an empty list) and, for an insertion, with a new
    cell from the allocator, the invariants hold again: [size == 0] iff
    head and tail are none, the head has no previous and the tail no
    next element, neighbours point at each other, and the forward and
    the backward scan visit exactly [size] elements, the same ones. *)
Theorem step_preserves_invariants s o r s' :
  dlist_invariants s → op_ok s o →
  step o s = Some (r, s') → r = 0 →
  dlist_invariants s'.
Proof.
  intros Hinv Hok Hstep ->.
  destruct (dlist_invariants_repr _ Hinv) as [els Hr].
  destruct (step_repr s els o Hr Hok) as (r & s'' & Hstep' & Hres).
  rewrite Hstep in Hstep'. injection Hstep' as <- <-.
  destruct Hres as [(_ & els' & Hr')|[? _]]; [|done].
  by eapply dl_repr_invariants.
Qed.

(** C2 (amended): InsertAfter and InsertBefore return -1 and leave the
    store unchanged exactly when [element] is none while the list is
    non-empty, or the allocation fails.  In every other case, which
    includes an [element] that is not none on an empty list, they
    return 0 whenever they have a defined result, and they have one on
    a well-formed list when [element] is a member of a non-empty list
    and the new cell is free.  On an empty list [element] is not
    looked at: the new element becomes the only one. *)
Theorem insert_fails_exactly s new_element element d :
  (ins_failure s new_element element →
     dlist_ins_next new_element element d s = Some (-1, s) ∧
     dlist_ins_prev new_element element d s = Some (-1, s)) ∧
  (¬ ins_failure s new_element element →
     (∀ r s', dlist_ins_next new_element element d s = Some (r, s') →
              r = 0 ∧ dlist_size (dl s') = dlist_size (dl s) + 1) ∧
     (∀ r s', dlist_ins_prev new_element element d s = Some (r, s') →
              r = 0 ∧ dlist_size (dl s') = dlist_size (dl s) + 1) ∧
     (dlist_invariants s →
      (dlist_size (dl s) ≠ 0 → valid_element s element) →
      fresh s new_element →
      ∃ s1 s2, dlist_ins_next new_element element d s = Some (0, s1) ∧
               dlist_ins_prev new_element element d s = Some (0, s2))) ∧
  (dlist_size (dl s) = 0 → ∀ ne, new_element = Some ne →
     let s' := mkState (<[ne := mkElmt d None None]> (heap s))
                       (mkDList 1 (dlist_match (dl s)) (destroy (dl s)) (Some ne) (Some ne))
                       (calls s) in
     dlist_ins_next new_element element d s = Some (0, s') ∧
     dlist_ins_prev new_element element d s = Some (0, s')).
Proof.
  split; [|split; [intros Hnf; split_and!|]].
  5:{ intros Hsz ne ->. simpl.
      by rewrite dlist_ins_next_empty, dlist_ins_prev_empty. }
  - intros Hf. by rewrite dlist_ins_next_fail, dlist_ins_prev_fail.
  - intros r s' Hrun. pose proof (dlist_ins_next_size _ _ _ _ _ _ Hrun) as (_ & Hsz & _).
    apply dlist_ins_next_ret in Hrun as [(_ & _ & ?)|[-> _]]; [done|]. by split.
  - intros r s' Hrun. pose proof (dlist_ins_prev_size _ _ _ _ _ _ Hrun) as (_ & Hsz & _).
    apply dlist_ins_prev_ret in Hrun as [(_ & _ & ?)|[-> _]]; [done|]. by split.
  - intros Hinv Hval Hfresh. destruct (dlist_invariants_repr _ Hinv) as [els Hr].
    destruct (dlist_ins_next_ok s els new_element element d) as (s1 & _ & ? & _); [done..|].
    destruct (dlist_ins_prev_ok s els new_element element d) as (s2 & _ & ? & _); [done..|].
    by exists s1, s2.
Qed.

(** C3: Remove returns -1 exactly when [element] is none or the list
    is empty, and then nothing is changed: the store after the call is
    the store before it, and nothing is stored through [data].  In
    every other case it returns 0 whenever it has a defined result,
    and it has one on a well-formed list when [element] is a member. *)
Theorem remove_fails_exactly s element :
  (remove_failure s element →
     dlist_remove element s = Some ((-1, None), s)) ∧
  (¬ remove_failure s element →
     (∀ r s', dlist_remove element s = Some (r, s') → r.1 = 0) ∧
     (dlist_invariants s → valid_element s element →
      ∃ d s', dlist_remove element s = Some ((0, Some d), s'))).
Proof.
  split; [|intros Hnf; split].
  - apply dlist_remove_fail.
  - intros r s' Hrun.
    by apply dlist_remove_ret in Hrun as [(_ & _ & ?)|(l & n & -> & _)].
  - intros Hinv Hval. destruct (dlist_invariants_repr _ Hinv) as [els Hr].
    destruct (dlist_remove_ok s els element) as (d & s' & _ & ? & _); [done..|].
    by exists d, s'.
Qed.

(** C9: a successful Remove hands back the payload stored in the
    element it is given, and that element is no longer allocated;
    whatever Remove returns, it has called no callback, whether or not
    a destructor is registered. *)
Theorem remove_returns_payload s element r s' :
  dlist_remove element s = Some (r, s') →
  calls s' = calls s ∧
  (r.1 = 0 →
   ∃ l n, element = Some l ∧ heap s !! l = Some n ∧
          r.2 = Some (dlist_data n) ∧ heap s' !! l = None).
Proof.
  intros Hrun. split; [by apply dlist_remove_size in Hrun as (_ & _ & ?)|].
  intros Hr0.
  pose proof Hrun as [(-> & _)|(l & n & -> & -> & Hl & Hnf)]%dlist_remove_ret; [done|].
  exists l, n. split_and!; try done.
  revert Hrun. unfold_stmt. intros Hrun. run_cases; apply lookup_delete_eq.
Qed.

(** C7: on an empty list, InsertAfter with no element and a payload
    [x], given a new cell, returns 0; Remove of the head then returns 0
    and [x], and the store is the initial one again: size 0, head and
    tail none. *)
Theorem insert_remove_roundtrip s x ne :
  dlist_size (dl s) = 0 → dlist_head (dl s) = None → dlist_tail (dl s) = None →
  heap s !! ne = None →
  ∃ s1, dlist_ins_next (Some ne) None x s = Some (0, s1) ∧
        dlist_size (dl s1) = 1 ∧
        dlist_remove (dlist_head (dl s1)) s1 = Some ((0, Some x), s).
Proof.
  intros Hsz Hhd Htl Hfresh. rewrite dlist_ins_next_empty by done.
  eexists. split; [done|]. split; [done|].
  destruct s as [h [sz m dfn hd tl] c]. simpl in *. subst.
  assert (Hbd : bool_decide (Some ne = Some ne) = true) by (by apply bool_decide_eq_true_2).
  unfold_stmt. run_using ltac:(rewrite ?Hbd).
  by rewrite delete_insert_id.
Qed.

(** ** Teardown *)

Lemma dl_repr_calls h l c c' els :
  dl_repr (mkState h l c) els → dl_repr (mkState h l c') els.
Proof. done. Qed.

(** The loop of [dlist_destroy] on a represented list: it ends within
    [length els] rounds, removes the elements from the tail and calls
    the destructor, when there is one, on each payload. *)
Lemma destroy_loop_repr els : ∀ s fuel data,
  dl_repr s els → (length els ≤ fuel)%nat →
  ∃ s', destroy_loop fuel data s = Some (tt, s') ∧
        dl_repr s' [] ∧
        calls s' = calls s ++ match destroy (dl s) with
                              | Some f => (λ e, (f, e.2)) <$> reverse els
                              | None => []
                              end ∧
        dlist_match (dl s') = dlist_match (dl s) ∧
        destroy (dl s') = destroy (dl s).
Proof.
  induction els as [|e els IH] using rev_ind; intros s fuel data Hr Hfuel.
  - exists s. pose proof Hr as (Hsz & _). simpl in Hsz.
    split; [|split_and!; try done].
    + destruct fuel; simpl; unfold bind, read_list, ret; by rewrite Hsz.
    + destruct (destroy (dl s)); by rewrite app_nil_r.
  - rewrite length_app in Hfuel. simpl in Hfuel.
    destruct fuel as [|fuel]; [lia|].
    pose proof Hr as (Hsz & _ & Htl & _). rewrite last_or_snoc in Htl.
    destruct (dlist_remove_repr s els e [] Hr) as (s1 & Hrem & Hr1 & Hc1 & Hm1 & Hd1 & _).
    rewrite app_nil_r in Hr1.
    assert (Hpos : (0 <? dlist_size (dl s)) = true).
    { apply Z.ltb_lt. rewrite Hsz, length_app. simpl. lia. }
    unfold destroy_loop; fold (@destroy_loop A).
    unfold bind at 1. unfold read_list at 1. rewrite Hpos.
    unfold bind at 1. unfold read_list at 1. rewrite Htl.
    unfold bind at 1. rewrite Hrem. cbn [fst snd].
    change (0 =? 0) with true. cbv iota.
    unfold bind at 1. unfold bind at 1. unfold read_list at 1. rewrite Hd1.
    destruct (destroy (dl s)) as [f|] eqn:Hfn.
    + unfold call at 1.
      destruct s1 as [h1 l1 c1]. simpl in *.
      destruct (IH (mkState h1 l1 (c1 ++ [(f, e.2)])) fuel (Some e.2)) as (s' & Hloop & Hr' & Hc' & Hm' & Hd');
        [done|lia|].
      exists s'. split; [done|]. simpl in *. split_and!; try congruence.
      rewrite Hc', Hd1, Hc1, reverse_app, fmap_app. simpl.
      by rewrite <- (assoc_L (++)).
    + unfold ret at 1.
      destruct (IH s1 fuel (Some e.2)) as (s' & Hloop & Hr' & Hc' & Hm' & Hd');
        [done|lia|].
      exists s'. split; [done|]. split_and!; try congruence.
      by rewrite Hc', Hd1, Hc1, app_nil_r.
Qed.

Lemma dlseg_payloads h p els q :
  dlseg h p els q → omap (λ l, dlist_data <$> h !! l) els.*1 = els.*2.
Proof.
  revert p. induction els as [|e els IH]; intros p; simpl; [done|].
  intros [-> Hseg]. simpl. f_equal. by eapply IH.
Qed.

Lemma dl_repr_payloads s els : dl_repr s els → dlist_payloads s = els.*2.
Proof.
  intros Hr. unfold dlist_payloads. rewrite (dl_repr_members _ _ Hr).
  destruct Hr as (_ & _ & _ & Hseg & _). by eapply dlseg_payloads.
Qed.

(** C4: on a well-formed list of N elements with a destructor [f]
    registered, Destroy returns, having called [f] exactly N times,
    once on each payload (from the tail to the head), and leaves the
    list structure in the sentinel state: size zero, head and tail
    none, no callbacks. *)
Theorem destroy_calls_destructor s f fuel :
  dlist_invariants s → destroy (dl s) = Some f →
  (Z.to_nat (dlist_size (dl s)) ≤ fuel)%nat →
  ∃ s', dlist_destroy fuel s = Some (tt, s') ∧
        calls s' = calls s ++ ((λ d, (f, d)) <$> reverse (dlist_payloads s)) ∧
        Z.of_nat (length (dlist_payloads s)) = dlist_size (dl s) ∧
        dl s' = sentinel.
Proof.
  intros Hinv Hf Hfuel. destruct (dlist_invariants_repr _ Hinv) as [els Hr].
  pose proof Hr as (Hsz & _). rewrite Hsz, Nat2Z.id in Hfuel.
  destruct (destroy_loop_repr els s fuel None Hr Hfuel) as (s1 & Hloop & _ & Hc & _).
  unfold dlist_destroy, bind. rewrite Hloop. unfold memset_list, write_list.
  eexists. split; [done|]. simpl. rewrite (dl_repr_payloads _ _ Hr), Hc, Hf.
  split_and!; [|by rewrite length_fmap|done].
  f_equal. rewrite <- fmap_reverse, <- list_fmap_compose. done.
Qed.

(** C8 (amended): Destroy on a freshly initialized list calls no
    callback, touches no element and leaves size, head and tail as
    they are (0, none, none), but it clears the two callback fields:
    the store is the same afterwards exactly when the list was
    initialized with no destructor and no matcher.  A second Destroy
    changes nothing. *)
Theorem destroy_fresh_list s0 destroy_fn match_fn fuel :
  ∃ s1 s2,
    dlist_init destroy_fn match_fn s0 = Some (tt, s1) ∧
    dlist_destroy fuel s1 = Some (tt, s2) ∧
    heap s2 = heap s1 ∧ calls s2 = calls s1 ∧
    dlist_size (dl s2) = dlist_size (dl s1) ∧
    dlist_head (dl s2) = dlist_head (dl s1) ∧
    dlist_tail (dl s2) = dlist_tail (dl s1) ∧
    dl s2 = sentinel ∧
    (s2 = s1 ↔ destroy_fn = None ∧ match_fn = None) ∧
    dlist_destroy fuel s2 = Some (tt, s2).
Proof.
  eexists _, _. split; [done|]. simpl.
  split; [by destruct fuel|]. split_and!; try done.
  - split; [by intros [= <- <-]|by intros [-> ->]].
  - by destruct fuel.
Qed.

(** Destroy after a Destroy that returned changes nothing. *)
Lemma destroy_twice s s' fuel fuel' :
  dlist_destroy fuel s = Some (tt, s') →
  dlist_destroy fuel' s' = Some (tt, s').
Proof.
  unfold dlist_destroy, memset_list, write_list.
  intros ([] & s1 & _ & [= <-])%bind_Some.
  by destruct fuel'.
Qed.

(** ** Sequences of operations *)

Lemma step_size o s r s' :
  step o s = Some (r, s') →
  dlist_size (dl s')
  = dlist_size (dl s)
    + (if is_insert o && (r =? 0) then 1 else 0)
    - (if negb (is_insert o) && (r =? 0) then 1 else 0).
Proof.
  destruct o as [element d new_element|element d new_element|element]; simpl.
  - intros (_ & -> & _)%dlist_ins_next_size. lia.
  - intros (_ & -> & _)%dlist_ins_prev_size. lia.
  - intros ([r1 o1] & s1 & Hrem & [= <- <-])%bind_Some.
    apply dlist_remove_size in Hrem as (_ & -> & _). simpl. lia.
Qed.

Lemma run_size ops : ∀ s rets s',
  run ops s = Some (rets, s') →
  dlist_size (dl s')
  = dlist_size (dl s) + count_success is_insert ops rets
    - count_success (λ o, negb (is_insert o)) ops rets.
Proof.
  induction ops as [|o ops IH]; intros s rets s'; simpl.
  - intros [= <- <-]. simpl. lia.
  - intros (r & s1 & Hstep & (rs & s2 & Hrun & [= <- <-])%bind_Some)%bind_Some.
    apply step_size in Hstep. apply IH in Hrun. simpl. lia.
Qed.

Lemma run_defined ops : ∀ s els,
  dl_repr s els → run_ok ops s →
  ∃ rets s' els', run ops s = Some (rets, s') ∧ dl_repr s' els'.
Proof.
  induction ops as [|o ops IH]; intros s els Hr; simpl.
  - intros _. by exists [], s, els.
  - intros [Hok Hrest].
    destruct (step_repr s els o Hr Hok) as (r & s1 & Hstep & Hres).
    assert (∃ els1, dl_repr s1 els1) as [els1 Hr1].
    { destruct Hres as [(_ & ?)|(_ & ->)]; eauto. }
    destruct (IH s1 els1 Hr1 (Hrest _ _ Hstep)) as (rets & s' & els' & Hrun & Hr').
    exists (r :: rets), s', els'. split; [|done].
    unfold bind. by rewrite Hstep, Hrun.
Qed.

(** C6: after any sequence of InsertAfter, InsertBefore and Remove on
    a freshly initialized list, [size] is the number of insertions
    that returned 0 minus the number of removals that returned 0.  The
    sequence has a defined result when every operation is called with
    none or a member of the list and insertions get a free cell. *)
Theorem size_counts_successes destroy_fn match_fn ops s0 :
  (∀ rets s',
     bind (dlist_init destroy_fn match_fn) (λ _, run ops) s0 = Some (rets, s') →
     dlist_size (dl s')
     = count_success is_insert ops rets
       - count_success (λ o, negb (is_insert o)) ops rets) ∧
  (∀ s1, dlist_init destroy_fn match_fn s0 = Some (tt, s1) → run_ok ops s1 →
     ∃ rets s', bind (dlist_init destroy_fn match_fn) (λ _, run ops) s0 = Some (rets, s')
                ∧ dlist_invariants s').
Proof.
  split.
  - intros rets s' ([] & s1 & Hinit & Hrun)%bind_Some.
    apply run_size in Hrun. injection Hinit as <-. simpl in Hrun. lia.
  - intros s1 Hinit Hok.
    assert (Hr : dl_repr s1 []).
    { injection Hinit as <-. unfold dl_repr. simpl. split_and!; try done. constructor. }
    destruct (run_defined ops s1 [] Hr Hok) as (rets & s' & els' & Hrun & Hr').
    exists rets, s'. split; [|by eapply dl_repr_invariants].
    unfold bind at 1. by rewrite Hinit.
Qed.

(** ** Where the operations put and take elements *)

Lemma dlseg_contents h p els q :
  dlseg h p els q →
  omap (λ l, (λ e, (l, dlist_data e)) <$> h !! l) els.*1 = els.
Proof.
  revert p. induction els as [|[l d] els IH]; intros p; simpl; [done|].
  intros [-> Hseg]. simpl. f_equal. by eapply IH.
Qed.

Lemma dl_repr_contents s els : dl_repr s els → dlist_contents s = els.
Proof.
  intros Hr. unfold dlist_contents. rewrite (dl_repr_members _ _ Hr).
  destruct Hr as (_ & _ & _ & Hseg & _). by eapply dlseg_contents.
Qed.

Lemma dlist_invariants_contents s :
  dlist_invariants s → dl_repr s (dlist_contents s).
Proof.
  intros [els Hr]%dlist_invariants_repr. by rewrite (dl_repr_contents _ _ Hr).
Qed.

(** X1: on a well-formed list InsertAfter, given a member and a free
    cell, returns 0 and puts the new element right after [element];
    the other elements keep their places and payloads. *)
Theorem ins_next_position s a e de b ne d :
  dlist_invariants s → dlist_contents s = a ++ (e, de) :: b →
  heap s !! ne = None →
  ∃ s', dlist_ins_next (Some ne) (Some e) d s = Some (0, s') ∧
        dlist_contents s' = a ++ (e, de) :: (ne, d) :: b.
Proof.
  intros Hr%dlist_invariants_contents Hc Hfresh. rewrite Hc in Hr.
  destruct (dlist_ins_next_repr s a (e, de) b ne d Hr Hfresh) as (s' & Hrun & Hr' & _).
  exists s'. split; [done|]. by apply dl_repr_contents.
Qed.

(** X2: on a well-formed list InsertBefore, given a member and a free
    cell, returns 0 and puts the new element right before [element];
    the other elements keep their places and payloads. *)
Theorem ins_prev_position s a e de b ne d :
  dlist_invariants s → dlist_contents s = a ++ (e, de) :: b →
  heap s !! ne = None →
  ∃ s', dlist_ins_prev (Some ne) (Some e) d s = Some (0, s') ∧
        dlist_contents s' = a ++ (ne, d) :: (e, de) :: b.
Proof.
  intros Hr%dlist_invariants_contents Hc Hfresh. rewrite Hc in Hr.
  destruct (dlist_ins_prev_repr s a (e, de) b ne d Hr Hfresh) as (s' & Hrun & Hr' & _).
  exists s'. split; [done|]. by apply dl_repr_contents.
Qed.

(** X3: on a well-formed list Remove of a member returns 0 and the
    payload of that member, takes it out and keeps the other elements
    in their order. *)
Theorem remove_position s a e de b :
  dlist_invariants s → dlist_contents s = a ++ (e, de) :: b →
  ∃ s', dlist_remove (Some e) s = Some ((0, Some de), s') ∧
        dlist_contents s' = a ++ b.
Proof.
  intros Hr%dlist_invariants_contents Hc. rewrite Hc in Hr.
  destruct (dlist_remove_repr s a (e, de) b Hr) as (s' & Hrun & Hr' & _).
  exists s'. split; [done|]. by apply dl_repr_contents.
Qed.

Lemma dl_repr_head_tail s els :
  dl_repr s els →
  dlist_head (dl s) = first_or els None ∧ dlist_tail (dl s) = last_or els None.
Proof. by intros (_ & ? & ? & _). Qed.

(** X4: InsertAfter at [dlist_tail(list)] appends, on the empty list
    too (where the tail is none): the new element is the last one and
    the new tail. *)
Theorem ins_next_tail_appends s ne d :
  dlist_invariants s → heap s !! ne = None →
  ∃ s', dlist_ins_next (Some ne) (dlist_tail (dl s)) d s = Some (0, s') ∧
        dlist_contents s' = dlist_contents s ++ [(ne, d)] ∧
        dlist_tail (dl s') = Some ne.
Proof.
  intros Hr%dlist_invariants_contents Hfresh.
  destruct (dlist_contents s) as [|x els _] eqn:Hc using rev_ind.
  - destruct Hr as (Hsz & _). rewrite dlist_ins_next_empty by done.
    eexists. split; [done|]. split; [|done].
    apply dl_repr_contents. unfold dl_repr. simpl. rewrite lookup_insert_eq.
    split_and!; try done. apply NoDup_singleton.
  - pose proof (dl_repr_head_tail _ _ Hr) as [_ Htl]. rewrite last_or_snoc in Htl.
    rewrite Htl.
    destruct (dlist_ins_next_repr s els x [] ne d Hr Hfresh) as (s' & Hrun & Hr' & _).
    exists s'. split; [done|].
    rewrite (dl_repr_contents _ _ Hr'), <- (assoc_L (++)). split; [done|].
    apply dl_repr_head_tail in Hr' as [_ ->].
    by rewrite (last_or_app els [x; (ne, d)]).
Qed.

(** X5: InsertBefore at [dlist_head(list)] prepends, on the empty list
    too: the new element is the first one and the new head. *)
Theorem ins_prev_head_prepends s ne d :
  dlist_invariants s → heap s !! ne = None →
  ∃ s', dlist_ins_prev (Some ne) (dlist_head (dl s)) d s = Some (0, s') ∧
        dlist_contents s' = (ne, d) :: dlist_contents s ∧
        dlist_head (dl s') = Some ne.
Proof.
  intros Hr%dlist_invariants_contents Hfresh.
  destruct (dlist_contents s) as [|x els] eqn:Hc.
  - destruct Hr as (Hsz & _). rewrite dlist_ins_prev_empty by done.
    eexists. split; [done|]. split; [|done].
    apply dl_repr_contents. unfold dl_repr. simpl. rewrite lookup_insert_eq.
    split_and!; try done. apply NoDup_singleton.
  - pose proof (dl_repr_head_tail _ _ Hr) as [Hhd _]. simpl in Hhd. rewrite Hhd.
    destruct (dlist_ins_prev_repr s [] x els ne d Hr Hfresh) as (s' & Hrun & Hr' & _).
    exists s'. split; [done|]. simpl in Hr'.
    rewrite (dl_repr_contents _ _ Hr'). split; [done|].
    by apply dl_repr_head_tail in Hr' as [-> _].
Qed.

(** ** What the operations touch *)

(** Decides the lookups of the context in updated stores, by cases on
    whether the two addresses are the same. *)
Ltac split_lookups :=
  repeat (simplify_eq/=;
          match goal with
          | H : context [<[?a:=_]> _ !! ?a] |- _ => rewrite lookup_insert_eq in H
          | H : context [<[?a:=_]> _ !! ?b] |- _ =>
              destruct (decide (a = b)) as [->|?];
              [rewrite lookup_insert_eq in H|rewrite lookup_insert_ne in H by done]
          end);
  simplify_eq/=.

(** Uses the lookups of the context in the other facts. *)
Ltac use_lookups :=
  repeat match goal with
  | H : ?x = Some _, H' : context [?x] |- _ =>
      lazymatch type of H' with
      | x = _ => fail
      | _ => rewrite H in H'
      end
  end; simplify_eq/=.

Lemma ins_next_frame s new_element element d r s' l :
  dlist_ins_next new_element element d s = Some (r, s') →
  Some l ≠ new_element → Some l ≠ element →
  Some l ≠ neighbour s element dlist_next →
  heap s' !! l = heap s !! l.
Proof.
  unfold neighbour, field_of. unfold_stmt. intros Hrun Hne He Hn.
  run_cases; split_lookups; use_lookups.
  all: by rewrite ?lookup_insert_ne by congruence.
Qed.

(** Decides the lookups of the goal in updated stores. *)
Ltac split_goal_lookups :=
  repeat match goal with
  | |- context [<[?a:=_]> _ !! ?a] => rewrite lookup_insert_eq
  | |- context [delete ?a _ !! ?a] => rewrite lookup_delete_eq
  | |- context [<[?a:=_]> _ !! ?b] =>
      destruct (decide (a = b)) as [->|?];
      [rewrite lookup_insert_eq|rewrite lookup_insert_ne by done]
  | |- context [delete ?a _ !! ?b] =>
      destruct (decide (a = b)) as [->|?];
      [rewrite lookup_delete_eq|rewrite lookup_delete_ne by done]
  end.

(** Solves a goal on the domain of an updated store from the lookups
    of the context. *)
Ltac solve_dom_any :=
  simpl; rewrite ?dom_delete_L, ?dom_insert_L;
  repeat match goal with
  | H : _ !! _ = Some _ |- _ => apply elem_of_dom_2 in H
  end;
  repeat match goal with
  | H : ?P |- _ =>
      lazymatch P with
      | _ ∈ dom _ => fail
      | _ => clear H
      end
  end;
  set_solver.

(** Closes a goal on the payload of a cell that a lookup of the
    context describes. *)
Ltac solve_payload :=
  try done; try congruence;
  repeat match goal with
  | H : ?x = Some _ |- context [?x] => rewrite H
  end;
  try done; try congruence.

Lemma ins_next_payloads s new_element element d r s' l n :
  dlist_ins_next new_element element d s = Some (r, s') →
  Some l ≠ new_element → heap s !! l = Some n →
  dlist_data <$> heap s' !! l = Some (dlist_data n).
Proof.
  unfold_stmt. intros Hrun Hne Hl.
  run_cases; split_lookups; split_goal_lookups; use_lookups; solve_payload.
Qed.

Lemma ins_next_dom s new_element element d s' :
  dlist_ins_next new_element element d s = Some (0, s') →
  ∃ ne, new_element = Some ne ∧ dom (heap s') = {[ne]} ∪ dom (heap s).
Proof.
  unfold_stmt. intros Hrun.
  run_cases; split_lookups; eexists; (split; [done|]); solve_dom_any.
Qed.

Lemma ins_prev_frame s new_element element d r s' l :
  dlist_ins_prev new_element element d s = Some (r, s') →
  Some l ≠ new_element → Some l ≠ element →
  Some l ≠ neighbour s element dlist_prev →
  heap s' !! l = heap s !! l.
Proof.
  unfold neighbour, field_of. unfold_stmt. intros Hrun Hne He Hn.
  run_cases; split_lookups; use_lookups.
  all: by rewrite ?lookup_insert_ne by congruence.
Qed.

Lemma ins_prev_payloads s new_element element d r s' l n :
  dlist_ins_prev new_element element d s = Some (r, s') →
  Some l ≠ new_element → heap s !! l = Some n →
  dlist_data <$> heap s' !! l = Some (dlist_data n).
Proof.
  unfold_stmt. intros Hrun Hne Hl.
  run_cases; split_lookups; split_goal_lookups; use_lookups; solve_payload.
Qed.

Lemma ins_prev_dom s new_element element d s' :
  dlist_ins_prev new_element element d s = Some (0, s') →
  ∃ ne, new_element = Some ne ∧ dom (heap s') = {[ne]} ∪ dom (heap s).
Proof.
  unfold_stmt. intros Hrun.
  run_cases; split_lookups; eexists; (split; [done|]); solve_dom_any.
Qed.

Lemma remove_frame s element r s' l :
  dlist_remove element s = Some (r, s') →
  Some l ≠ element →
  Some l ≠ neighbour s element dlist_prev →
  Some l ≠ neighbour s element dlist_next →
  heap s' !! l = heap s !! l.
Proof.
  unfold neighbour, field_of. unfold_stmt. intros Hrun He Hp Hn.
  run_cases; split_lookups; use_lookups.
  all: rewrite ?lookup_delete_ne by congruence.
  all: by rewrite ?lookup_insert_ne by congruence.
Qed.

Lemma remove_payloads s element r s' l n :
  dlist_remove element s = Some (r, s') →
  Some l ≠ element → heap s !! l = Some n →
  dlist_data <$> heap s' !! l = Some (dlist_data n).
Proof.
  unfold_stmt. intros Hrun Hne Hl.
  run_cases; split_lookups; split_goal_lookups; use_lookups; solve_payload.
Qed.

Lemma remove_dom s element r s' :
  dlist_remove element s = Some (r, s') → r.1 = 0 →
  ∃ e, element = Some e ∧ dom (heap s') = dom (heap s) ∖ {[e]}.
Proof.
  unfold_stmt. intros Hrun Hr.
  run_cases; split_lookups; eexists; (split; [done|]); solve_dom_any.
Qed.

(** X6: InsertAfter writes to no cell but the new one, [element] and
    [element->next]; it changes no payload; when it returns 0 the new
    cell is the only one it allocates, and it frees none. *)
Theorem ins_next_footprint s new_element element d r s' :
  dlist_ins_next new_element element d s = Some (r, s') →
  (∀ l, Some l ≠ new_element → Some l ≠ element →
        Some l ≠ neighbour s element dlist_next →
        heap s' !! l = heap s !! l) ∧
  (∀ l n, Some l ≠ new_element → heap s !! l = Some n →
          dlist_data <$> heap s' !! l = Some (dlist_data n)) ∧
  (r = 0 → ∃ ne, new_element = Some ne ∧ dom (heap s') = {[ne]} ∪ dom (heap s)).
Proof.
  intros Hrun. split_and!.
  - intros l. by eapply ins_next_frame.
  - intros l n. by eapply ins_next_payloads.
  - intros ->. by eapply ins_next_dom.
Qed.

(** X7: InsertBefore writes to no cell but the new one, [element] and
    [element->prev]; it changes no payload; when it returns 0 the new
    cell is the only one it allocates, and it frees none. *)
Theorem ins_prev_footprint s new_element element d r s' :
  dlist_ins_prev new_element element d s = Some (r, s') →
  (∀ l, Some l ≠ new_element → Some l ≠ element →
        Some l ≠ neighbour s element dlist_prev →
        heap s' !! l = heap s !! l) ∧
  (∀ l n, Some l ≠ new_element → heap s !! l = Some n →
          dlist_data <$> heap s' !! l = Some (dlist_data n)) ∧
  (r = 0 → ∃ ne, new_element = Some ne ∧ dom (heap s') = {[ne]} ∪ dom (heap s)).
Proof.
  intros Hrun. split_and!.
  - intros l. by eapply ins_prev_frame.
  - intros l n. by eapply ins_prev_payloads.
  - intros ->. by eapply ins_prev_dom.
Qed.

(** X8: Remove writes to no cell but [element] and its two neighbours; it
    changes no payload of the cells that stay; when it returns 0 it
    frees [element] and nothing else, and allocates nothing. *)
Theorem remove_footprint s element r s' :
  dlist_remove element s = Some (r, s') →
  (∀ l, Some l ≠ element →
        Some l ≠ neighbour s element dlist_prev →
        Some l ≠ neighbour s element dlist_next →
        heap s' !! l = heap s !! l) ∧
  (∀ l n, Some l ≠ element → heap s !! l = Some n →
          dlist_data <$> heap s' !! l = Some (dlist_data n)) ∧
  (r.1 = 0 → ∃ e, element = Some e ∧ dom (heap s') = dom (heap s) ∖ {[e]}).
Proof.
  intros Hrun. split_and!.
  - intros l. by eapply remove_frame.
  - intros l n. by eapply remove_payloads.
  - by eapply remove_dom.
Qed.

(** ** Cells outside the list *)

Lemma first_or_None_elem els l : first_or els None = Some l → l ∈ els.*1.
Proof. destruct els as [|e els]; [done|]. intros [= <-]. rewrite fmap_cons. left. Qed.

Lemma last_or_None_elem els l : last_or els None = Some l → l ∈ els.*1.
Proof.
  destruct els as [|e els _] using rev_ind; [done|].
  rewrite last_or_snoc. intros [= <-]. rewrite fmap_app. set_solver.
Qed.

(** The neighbours of a member are members. *)
Lemma dl_repr_neighbour s els x l :
  dl_repr s els → x ∈ els.*1 → l ∉ els.*1 →
  Some l ≠ neighbour s (Some x) dlist_prev ∧
  Some l ≠ neighbour s (Some x) dlist_next.
Proof.
  intros (_ & _ & _ & Hseg & _) (l1 & l2 & Heq)%list_elem_of_split Hl.
  apply fmap_app_inv in Heq as (a & b' & Ha & Hb & ->).
  destruct b' as [|e b]; [done|]. simpl in Hb. injection Hb as -> Hb.
  apply dlseg_app in Hseg as (_ & He & _). simpl in He.
  rewrite fmap_app, fmap_cons in Hl.
  apply not_elem_of_app in Hl as [Hla Hlb]. apply not_elem_of_cons in Hlb as [_ Hlb].
  unfold neighbour, field_of. rewrite He. simpl. split.
  - intros Heq. symmetry in Heq. by apply last_or_None_elem in Heq.
  - intros Heq. symmetry in Heq. by apply first_or_None_elem in Heq.
Qed.

Lemma remove_repr_frame s els x r s' l :
  dl_repr s els → x ∈ els.*1 →
  dlist_remove (Some x) s = Some (r, s') →
  l ∉ els.*1 → heap s' !! l = heap s !! l.
Proof.
  intros Hr Hx Hrun Hl.
  destruct (dl_repr_neighbour s els x l Hr Hx Hl) as [Hp Hn].
  eapply remove_frame; [done| |done..].
  intros [= ->]. done.
Qed.

Lemma ins_next_repr_frame s els x ne d r s' l :
  dl_repr s els → x ∈ els.*1 →
  dlist_ins_next (Some ne) (Some x) d s = Some (r, s') →
  l ∉ els.*1 → l ≠ ne → heap s' !! l = heap s !! l.
Proof.
  intros Hr Hx Hrun Hl Hne.
  destruct (dl_repr_neighbour s els x l Hr Hx Hl) as [Hp Hn].
  eapply ins_next_frame; [done|congruence| |done].
  intros [= ->]. done.
Qed.

Lemma ins_prev_repr_frame s els x ne d r s' l :
  dl_repr s els → x ∈ els.*1 →
  dlist_ins_prev (Some ne) (Some x) d s = Some (r, s') →
  l ∉ els.*1 → l ≠ ne → heap s' !! l = heap s !! l.
Proof.
  intros Hr Hx Hrun Hl Hne.
  destruct (dl_repr_neighbour s els x l Hr Hx Hl) as [Hp Hn].
  eapply ins_prev_frame; [done|congruence| |done].
  intros [= ->]. done.
Qed.

(** Two stores that hold the same list agree on its cells. *)
Lemma dlseg_agree h h' p els q l :
  dlseg h p els q → dlseg h' p els q → l ∈ els.*1 → h !! l = h' !! l.
Proof.
  revert p. induction els as [|e els IH]; intros p; simpl.
  - intros _ _ Hl. by apply elem_of_nil in Hl.
  - intros [He Hseg] [He' Hseg'] [->|Hl]%elem_of_cons; [congruence|eauto].
Qed.

(** Two stores that hold the same list, with the same cells outside
    it, the same callbacks and the same trace, are the same store. *)
Lemma dl_repr_unique s s' els :
  dl_repr s els → dl_repr s' els →
  (∀ l, l ∉ els.*1 → heap s' !! l = heap s !! l) →
  dlist_match (dl s') = dlist_match (dl s) →
  destroy (dl s') = destroy (dl s) →
  calls s' = calls s →
  s' = s.
Proof.
  intros (Hsz & Hhd & Htl & Hseg & _) (Hsz' & Hhd' & Htl' & Hseg' & _) Hout Hm Hd Hc.
  destruct s as [h [sz m df hd tl] c], s' as [h' [sz' m' df' hd' tl'] c'].
  simpl in *. subst. f_equal. apply map_eq. intros l.
  destruct (decide (l ∈ els.*1)) as [Hl|Hl]; [by eapply dlseg_agree|by apply Hout].
Qed.

(** ** Round trips on a non-empty list *)

(** X9: on a well-formed list, inserting after or before a member
    and removing the new element again gives back the payload and the
    store as it was, cell by cell. *)
Theorem insert_remove_restores s e ne d :
  dlist_invariants s → e ∈ dlist_members s → heap s !! ne = None →
  (∃ s1, dlist_ins_next (Some ne) (Some e) d s = Some (0, s1) ∧
         dlist_remove (Some ne) s1 = Some ((0, Some d), s)) ∧
  (∃ s1, dlist_ins_prev (Some ne) (Some e) d s = Some (0, s1) ∧
         dlist_remove (Some ne) s1 = Some ((0, Some d), s)).
Proof.
  intros [els Hr]%dlist_invariants_repr He Hfresh.
  pose proof (dl_repr_fresh _ _ _ Hr Hfresh) as Hne.
  pose proof He as He'. rewrite (dl_repr_members _ _ Hr) in He'.
  destruct (valid_element_split _ _ _ Hr He) as (a & de & b & ->).
  split.
  - destruct (dlist_ins_next_repr s a (e, de) b ne d Hr Hfresh)
      as (s1 & Hrun1 & Hr1 & Hc1 & Hm1 & Hd1 & Hdom1).
    exists s1. split; [done|].
    assert (Hr1' : dl_repr s1 ((a ++ [(e, de)]) ++ (ne, d) :: b))
      by (by rewrite <- (assoc_L (++))).
    destruct (dlist_remove_repr s1 (a ++ [(e, de)]) (ne, d) b Hr1')
      as (s2 & Hrun2 & Hr2 & Hc2 & Hm2 & Hd2 & Hdom2).
    rewrite <- (assoc_L (++)) in Hr2. simpl in Hr2, Hrun2. rewrite Hrun2.
    do 2 f_equal. apply (dl_repr_unique s s2 _ Hr Hr2); [|congruence..].
    intros l Hl. destruct (decide (l = ne)) as [->|Hlne].
    + rewrite Hfresh. apply not_elem_of_dom. rewrite Hdom2. set_solver.
    + rewrite <- (ins_next_repr_frame s _ e ne d _ s1 l Hr He' Hrun1 Hl Hlne).
      eapply (remove_repr_frame s1 _ ne _ s2 l Hr1'); [|done|].
      * rewrite !fmap_app, !fmap_cons. set_solver.
      * rewrite !fmap_app, !fmap_cons in *. simpl. set_solver.
  - destruct (dlist_ins_prev_repr s a (e, de) b ne d Hr Hfresh)
      as (s1 & Hrun1 & Hr1 & Hc1 & Hm1 & Hd1 & Hdom1).
    exists s1. split; [done|].
    destruct (dlist_remove_repr s1 a (ne, d) ((e, de) :: b) Hr1)
      as (s2 & Hrun2 & Hr2 & Hc2 & Hm2 & Hd2 & Hdom2).
    simpl in Hrun2. rewrite Hrun2.
    do 2 f_equal. apply (dl_repr_unique s s2 _ Hr Hr2); [|congruence..].
    intros l Hl. destruct (decide (l = ne)) as [->|Hlne].
    + rewrite Hfresh. apply not_elem_of_dom. rewrite Hdom2. set_solver.
    + rewrite <- (ins_prev_repr_frame s _ e ne d _ s1 l Hr He' Hrun1 Hl Hlne).
      eapply (remove_repr_frame s1 _ ne _ s2 l Hr1); [|done|].
      * rewrite !fmap_app, !fmap_cons. set_solver.
      * rewrite !fmap_app, !fmap_cons in *. simpl. set_solver.
Qed.

(** ** Teardown and the cells *)

Lemma destroy_loop_heap els : ∀ s fuel data,
  dl_repr s els → (length els ≤ fuel)%nat →
  ∃ s', destroy_loop fuel data s = Some (tt, s') ∧
        (∀ l, l ∈ els.*1 → heap s' !! l = None) ∧
        (∀ l, l ∉ els.*1 → heap s' !! l = heap s !! l).
Proof.
  induction els as [|e els IH] using rev_ind; intros s fuel data Hr Hfuel.
  - exists s. pose proof Hr as (Hsz & _). simpl in Hsz.
    split; [|split; [by intros l ?%elem_of_nil|done]].
    destruct fuel; simpl; unfold bind, read_list, ret; by rewrite Hsz.
  - rewrite length_app in Hfuel. simpl in Hfuel.
    destruct fuel as [|fuel]; [lia|].
    pose proof Hr as (Hsz & _ & Htl & _ & Hnd). rewrite last_or_snoc in Htl.
    rewrite fmap_app in Hnd. apply NoDup_app in Hnd as (_ & Hnd & _).
    assert (He : e.1 ∈ (els ++ [e]).*1) by (rewrite fmap_app; set_solver).
    destruct (dlist_remove_repr s els e [] Hr) as (s1 & Hrem & Hr1 & _ & _ & _ & Hdom).
    rewrite app_nil_r in Hr1.
    assert (Hframe : ∀ l, l ∉ (els ++ [e]).*1 → heap s1 !! l = heap s !! l)
      by (intros l Hl; by eapply remove_repr_frame).
    assert (Hpos : (0 <? dlist_size (dl s)) = true).
    { apply Z.ltb_lt. rewrite Hsz, length_app. simpl. lia. }
    assert (Hfreed : heap s1 !! e.1 = None).
    { apply not_elem_of_dom. rewrite Hdom. set_solver. }
    assert (Hnotin : e.1 ∉ els.*1).
    { intros Hin. apply (Hnd e.1 Hin). simpl. left. }
    unfold destroy_loop; fold (@destroy_loop A).
    unfold bind at 1. unfold read_list at 1. rewrite Hpos.
    unfold bind at 1. unfold read_list at 1. rewrite Htl.
    unfold bind at 1. rewrite Hrem. cbn [fst snd].
    change (0 =? 0) with true. cbv iota.
    unfold bind at 1. unfold bind at 1. unfold read_list at 1.
    assert (∃ s2, (match destroy (dl s1) with
                   | Some f => call f e.2
                   | None => ret tt
                   end) s1 = Some (tt, s2) ∧ heap s2 = heap s1 ∧ dl_repr s2 els)
      as (s2 & -> & Hh2 & Hr2).
    { destruct (destroy (dl s1)); eexists; (split; [done|]); by destruct s1. }
    destruct (IH s2 fuel (Some e.2) Hr2 ltac:(lia)) as (s' & Hloop & Hin & Hout).
    exists s'. split; [done|]. split.
    + intros l. rewrite fmap_app. intros [Hl|Hl%list_elem_of_singleton]%elem_of_app.
      * by apply Hin.
      * simpl in Hl. subst l. rewrite Hout by done. by rewrite Hh2.
    + intros l Hl. pose proof Hl as Hl'. rewrite fmap_app in Hl'.
      apply not_elem_of_app in Hl' as [Hl1 _].
      rewrite Hout by done. rewrite Hh2. by apply Hframe.
Qed.

(** X10: Destroy on a well-formed list returns, frees every member and no
    other cell, and leaves the other cells as they are; with no
    destructor registered it calls nothing. *)
Theorem destroy_frees_members s fuel :
  dlist_invariants s → (Z.to_nat (dlist_size (dl s)) ≤ fuel)%nat →
  ∃ s', dlist_destroy fuel s = Some (tt, s') ∧
        (∀ l, l ∈ dlist_members s → heap s' !! l = None) ∧
        (∀ l, l ∉ dlist_members s → heap s' !! l = heap s !! l) ∧
        (destroy (dl s) = None → calls s' = calls s).
Proof.
  intros [els Hr]%dlist_invariants_repr Hfuel.
  pose proof Hr as (Hsz & _). rewrite Hsz, Nat2Z.id in Hfuel.
  rewrite (dl_repr_members _ _ Hr).
  destruct (destroy_loop_heap els s fuel None Hr Hfuel) as (s1 & Hloop & Hin & Hout).
  destruct (destroy_loop_repr els s fuel None Hr Hfuel) as (s1' & Hloop' & _ & Hc & _).
  rewrite Hloop in Hloop'. injection Hloop' as <-.
  unfold dlist_destroy, bind. rewrite Hloop. unfold memset_list, write_list.
  eexists. split; [done|]. simpl. split_and!; [done..|].
  intros Hnone. rewrite Hc, Hnone. by rewrite app_nil_r.
Qed.

(** [destroy_loop_result] follows the loop of [dlist_destroy] round by
    round: the loop has a result exactly when it has left the loop. *)
Lemma destroy_loop_result_spec fuel : ∀ data s,
  destroy_loop fuel data s
  = match destroy_loop_result fuel data s with
    | Returned s' => Some (tt, s')
    | Crashed | StillRunning => None
    end.
Proof.
  induction fuel as [|fuel IH]; intros data s; simpl;
    unfold destroy_round, bind, read_list, ret;
    destruct (0 <? dlist_size (dl s)); try done.
  destruct (dlist_remove (dlist_tail (dl s)) s) as [[r s1]|]; [|done].
  destruct (r.1 =? 0); [|apply IH].
  destruct (destroy (dl s1)) as [f|]; [|apply IH].
  destruct r.2 as [d'|]; [apply IH|].
  destruct data as [d0|]; [apply IH|done].
Qed.

(** X11: with a positive size and no tail, every round of the loop of
    Destroy has a defined result and changes nothing: Remove returns
    -1 with the store as it was, no callback is called, and the test
    of the loop holds again.  After any number of rounds the loop is
    still running, so Destroy never returns. *)
Theorem destroy_without_tail_diverges s fuel :
  0 < dlist_size (dl s) → dlist_tail (dl s) = None →
  dlist_remove (dlist_tail (dl s)) s = Some ((-1, None), s) ∧
  (∀ data, destroy_round data s = Some (data, s)) ∧
  (∀ data, destroy_loop_result fuel data s = StillRunning) ∧
  dlist_destroy fuel s = None.
Proof.
  intros Hsz Htl.
  assert (Hrem : dlist_remove (dlist_tail (dl s)) s = Some ((-1, None), s))
    by (apply dlist_remove_fail; by left).
  assert (Hround : ∀ data, destroy_round data s = Some (data, s)).
  { intros data. unfold destroy_round, bind, read_list. by rewrite Hrem. }
  assert (Hres : ∀ data, destroy_loop_result fuel data s = StillRunning).
  { apply Z.ltb_lt in Hsz.
    induction fuel as [|fuel IH]; intros data; simpl; rewrite Hsz; [done|].
    by rewrite Hround. }
  split_and!; try done.
  unfold dlist_destroy, bind. by rewrite destroy_loop_result_spec, Hres.
Qed.

(** ** Removing every element *)

Lemma run_cons (o : op A) ops s :
  run (o :: ops) s
  = match step o s with
    | Some (r, s1) =>
        match run ops s1 with
        | Some (rs, s2) => Some (r :: rs, s2)
        | None => None
        end
    | None => None
    end.
Proof. simpl. unfold bind, ret. by destruct (step o s) as [[r s1]|]. Qed.

Lemma step_Remove element s :
  step (Remove element) s
  = match dlist_remove element s with
    | Some (r, s') => Some (r.1, s')
    | None => None
    end.
Proof. done. Qed.

Lemma remove_all_repr order : ∀ s els,
  dl_repr s els → order ≡ₚ els.*1 →
  ∃ s', run ((λ l, Remove (Some l)) <$> order) s
        = Some (replicate (length order) 0, s') ∧
        dl_repr s' [] ∧
        dom (heap s') = dom (heap s) ∖ list_to_set order.
Proof.
  induction order as [|l order IH]; intros s els Hr Hperm.
  - apply Permutation_nil_l in Hperm. symmetry in Hperm.
    apply fmap_nil_inv in Hperm as ->.
    exists s. simpl. split_and!; [done..|set_solver].
  - assert (Hl : l ∈ dlist_members s).
    { rewrite (dl_repr_members _ _ Hr), <- Hperm. left. }
    destruct (valid_element_split _ _ _ Hr Hl) as (a & d & b & ->).
    destruct (dlist_remove_repr s a (l, d) b Hr) as (s1 & Hrem & Hr1 & _ & _ & _ & Hdom).
    rewrite fmap_app, fmap_cons in Hperm. simpl in Hperm.
    rewrite <- Permutation_middle in Hperm. apply Permutation_cons_inv in Hperm.
    rewrite <- fmap_app in Hperm.
    destruct (IH s1 (a ++ b) Hr1 Hperm) as (s' & Hrun & Hr' & Hdom').
    exists s'. rewrite fmap_cons, run_cons, step_Remove. simpl in Hrem.
    rewrite Hrem, Hrun. split_and!; [done..|].
    rewrite Hdom', Hdom. set_solver.
Qed.

(** X12: removing the members one at a time, in any order, succeeds every
    time and ends with size 0, no head and no tail, and every member
    freed. *)
Theorem remove_all_any_order s order :
  dlist_invariants s → order ≡ₚ dlist_members s →
  ∃ s', run ((λ l, Remove (Some l)) <$> order) s
        = Some (replicate (length order) 0, s') ∧
        dlist_size (dl s') = 0 ∧
        dlist_head (dl s') = None ∧ dlist_tail (dl s') = None ∧
        (∀ l, l ∈ order → heap s' !! l = None).
Proof.
  intros [els Hr]%dlist_invariants_repr Hperm.
  rewrite (dl_repr_members _ _ Hr) in Hperm.
  destruct (remove_all_repr order s els Hr Hperm) as (s' & Hrun & (? & ? & ? & _) & Hdom).
  exists s'. split_and!; try done.
  intros l Hl. apply not_elem_of_dom. rewrite Hdom. set_solver.
Qed.

(** ** An element that is not a member *)

Lemma scan_next_frame fuel h h' : ∀ p fs,
  scan_next fuel h p = Some fs →
  (∀ l, l ∈ fs → h' !! l = h !! l) →
  scan_next fuel h' p = Some fs.
Proof.
  induction fuel as [|fuel IH]; intros [l|] fs; simpl; try done.
  destruct (h !! l) as [n|] eqn:Hl; [|done].
  destruct (scan_next fuel h (dlist_next n)) as [fs'|] eqn:Hscan; [|done].
  simpl. intros [= <-] Hag. rewrite (Hag l), Hl by left.
  rewrite (IH _ fs' Hscan); [done|]. intros l' Hl'. apply Hag. by right.
Qed.

Lemma scan_next_more fuel h : ∀ p fs,
  scan_next fuel h p = Some fs → scan_next (S fuel) h p = Some fs.
Proof.
  induction fuel as [|fuel IH]; intros [l|] fs; try done.
  intros Hscan. simpl in Hscan. change (scan_next (S (S fuel)) h (Some l))
    with (match h !! l with
          | Some e => cons l <$> scan_next (S fuel) h (dlist_next e)
          | None => None
          end).
  destruct (h !! l) as [n|]; [|done].
  destruct (scan_next fuel h (dlist_next n)) as [fs'|] eqn:Hscan'; [|done].
  by rewrite (IH _ _ Hscan').
Qed.

Lemma ins_next_head s new_element element d r s' :
  dlist_ins_next new_element element d s = Some (r, s') →
  dlist_size (dl s) ≠ 0 → dlist_head (dl s') = dlist_head (dl s).
Proof.
  intros Hrun Hsz. apply Z.eqb_neq in Hsz.
  revert Hrun. unfold_stmt. intros Hrun. run_cases; simplify_eq/=; congruence.
Qed.

Lemma ins_next_defined s ne x n d :
  heap s !! x = Some n → x ≠ ne →
  match dlist_next n with
  | Some y => is_Some (heap s !! y) ∧ y ≠ ne
  | None => True
  end →
  is_Some (dlist_ins_next (Some ne) (Some x) d s).
Proof.
  intros Hx Hne Hnext.
  destruct (dlist_ins_next (Some ne) (Some x) d s) as [res|] eqn:Hrun; [done|].
  exfalso. revert Hrun. unfold_stmt. intros Hrun.
  destruct (dlist_next n) as [y|] eqn:Hn.
  - destruct Hnext as [[ny Hy] Hyne].
    run_cases; split_lookups; use_lookups; congruence.
  - run_cases; split_lookups; use_lookups; congruence.
Qed.

(** X13: the operations do not check that [element] is a member.  Given a
    cell that is allocated but neither a member nor linked to one,
    InsertAfter on a non-empty well-formed list returns 0 and counts
    one more element, but the scan from the head visits the same
    elements as before: the invariants no longer hold. *)
Theorem ins_next_nonmember_breaks_invariants s x n ne d :
  dlist_invariants s → dlist_size (dl s) ≠ 0 →
  heap s !! x = Some n → x ∉ dlist_members s →
  match dlist_next n with
  | Some y => is_Some (heap s !! y) ∧ y ∉ dlist_members s
  | None => True
  end →
  heap s !! ne = None →
  ∃ s', dlist_ins_next (Some ne) (Some x) d s = Some (0, s') ∧
        dlist_size (dl s') = dlist_size (dl s) + 1 ∧
        forward_scan s' = forward_scan s ∧
        ¬ dlist_invariants s'.
Proof.
  intros Hinv Hsz Hx Hxm Hnext Hfresh.
  assert (Hxne : x ≠ ne) by congruence.
  destruct (ins_next_defined s ne x n d Hx Hxne) as [[r s'] Hrun].
  { destruct (dlist_next n) as [y|]; [|done]. destruct Hnext as [[ny Hy] _].
    split; [by eexists|congruence]. }
  pose proof (dlist_ins_next_ret _ _ _ _ _ _ Hrun) as [(_ & _ & [[? _]|?])|[-> _]];
    try done.
  pose proof (dlist_ins_next_size _ _ _ _ _ _ Hrun) as (_ & Hsz' & _). simpl in Hsz'.
  pose proof (ins_next_head _ _ _ _ _ _ Hrun Hsz) as Hhd.
  destruct (dlist_invariants_repr _ Hinv) as [els Hr].
  pose proof (dl_repr_forward_scan _ _ Hr) as Hfs.
  pose proof Hr as (Hlen & _).
  rewrite (dl_repr_members _ _ Hr) in Hxm, Hnext.
  assert (Hscan : forward_scan s' = Some els.*1).
  { unfold forward_scan in *. rewrite Hhd, Hsz'.
    replace (Z.to_nat (dlist_size (dl s) + 1)) with (S (Z.to_nat (dlist_size (dl s))))
      by lia.
    apply scan_next_more. eapply scan_next_frame; [done|].
    intros l Hl. eapply ins_next_frame; [done|..].
    - intros [= ->]. apply (dl_repr_fresh _ _ _ Hr) in Hfresh. done.
    - intros [= ->]. done.
    - unfold neighbour, field_of. rewrite Hx. simpl.
      destruct (dlist_next n) as [y|]; [|done]. destruct Hnext as [_ Hy].
      intros [= ->]. done. }
  exists s'. split; [done|]. split; [done|]. split; [by rewrite Hscan, Hfs|].
  intros (_ & _ & _ & Hscans). rewrite Hscan in Hscans.
  destruct (backward_scan s'); [|done]. destruct Hscans as (Hl & _).
  rewrite length_fmap in Hl. lia.
Qed.

End WithPayload.

(** ** The scenario of the specification *)

Section Scenario.
Local Open Scope string_scope.

(** C5: Initialize; InsertAfter(none, "A"); InsertAfter(head, "B");
    InsertBefore(tail, "C"); Remove(head); Destroy, with any three
    distinct free cells from the allocator: the sizes are 1, 2, 3 and
    2, the order after the third insertion is A, C, B, Remove returns
    "A" and leaves "C" at the head, and Destroy leaves the sentinel
    state. *)
Theorem concrete_scenario (s0 : state string) destroy_fn match_fn (l1 l2 l3 : loc) :
  heap s0 !! l1 = None → heap s0 !! l2 = None → heap s0 !! l3 = None →
  l1 ≠ l2 → l1 ≠ l3 → l2 ≠ l3 →
  ∃ si s1 s2 s3 s4 s5,
    dlist_init destroy_fn match_fn s0 = Some (tt, si) ∧
    dlist_size (dl si) = 0 ∧ dlist_head (dl si) = None ∧ dlist_tail (dl si) = None ∧
    dlist_ins_next (Some l1) None "A" si = Some (0, s1) ∧
    dlist_size (dl s1) = 1 ∧ dlist_payloads s1 = ["A"] ∧
    dlist_head (dl s1) = Some l1 ∧ dlist_tail (dl s1) = Some l1 ∧
    dlist_ins_next (Some l2) (dlist_head (dl s1)) "B" s1 = Some (0, s2) ∧
    dlist_size (dl s2) = 2 ∧ dlist_payloads s2 = ["A"; "B"] ∧
    dlist_head (dl s2) = Some l1 ∧ dlist_tail (dl s2) = Some l2 ∧
    heap s2 !! l1 = Some (mkElmt "A" None (Some l2)) ∧
    heap s2 !! l2 = Some (mkElmt "B" (Some l1) None) ∧
    dlist_ins_prev (Some l3) (dlist_tail (dl s2)) "C" s2 = Some (0, s3) ∧
    dlist_size (dl s3) = 3 ∧ dlist_payloads s3 = ["A"; "C"; "B"] ∧
    dlist_remove (dlist_head (dl s3)) s3 = Some ((0, Some "A"), s4) ∧
    dlist_size (dl s4) = 2 ∧ dlist_payloads s4 = ["C"; "B"] ∧
    dlist_head (dl s4) = Some l3 ∧
    heap s4 !! l3 = Some (mkElmt "C" None (Some l2)) ∧
    dlist_destroy 2 s4 = Some (tt, s5) ∧
    dl s5 = sentinel.
Proof.
  intros H1 H2 H3 H12 H13 H23.
  set (si := mkState (heap s0) (mkDList 0 match_fn destroy_fn None None) (calls s0)).
  set (s1 := mkState (<[l1 := mkElmt "A" None None]> (heap s0))
                     (mkDList 1 match_fn destroy_fn (Some l1) (Some l1)) (calls s0)).
  assert (Hr1 : dl_repr s1 [(l1, "A")]).
  { unfold dl_repr. simpl. rewrite lookup_insert_eq. split_and!; try done.
    apply NoDup_singleton. }
  assert (Hf2 : heap s1 !! l2 = None) by (simpl; by rewrite lookup_insert_ne).
  destruct (dlist_ins_next_repr s1 [] (l1, "A") [] l2 "B" Hr1 Hf2)
    as (s2 & Hrun2 & Hr2 & _ & _ & _ & Hdom2).
  simpl in Hr2, Hdom2. rewrite dom_insert_L in Hdom2.
  assert (Hf3 : heap s2 !! l3 = None).
  { apply not_elem_of_dom. rewrite Hdom2.
    apply not_elem_of_dom in H3. clear -H3 H13 H23. set_solver. }
  destruct (dlist_ins_prev_repr s2 [(l1, "A")] (l2, "B") [] l3 "C" Hr2 Hf3)
    as (s3 & Hrun3 & Hr3 & _).
  destruct (dlist_remove_repr s3 [] (l1, "A") [(l3, "C"); (l2, "B")] Hr3)
    as (s4 & Hrun4 & Hr4 & _).
  simpl in Hr3, Hr4, Hrun2, Hrun3, Hrun4.
  destruct (destroy_loop_repr _ s4 2 None Hr4) as (s5 & Hloop & _); [simpl; lia|].
  exists si, s1, s2, s3, s4, (mkState (heap s5) sentinel (calls s5)).
  pose proof (dl_repr_payloads _ _ Hr1) as Hp1.
  pose proof (dl_repr_payloads _ _ Hr2) as Hp2.
  pose proof (dl_repr_payloads _ _ Hr3) as Hp3.
  pose proof (dl_repr_payloads _ _ Hr4) as Hp4.
  destruct Hr2 as (Hsz2 & Hhd2 & Htl2 & (Hl1 & Hl2 & _) & _).
  destruct Hr3 as (Hsz3 & Hhd3 & Htl3 & _).
  destruct Hr4 as (Hsz4 & Hhd4 & Htl4 & (Hl3 & _) & _).
  unfold last_or in Htl2. simpl in Hsz2, Hhd2, Htl2, Hl1, Hl2, Hsz3, Hhd3, Hsz4, Hhd4, Hl3.
  rewrite Hhd3, Htl2.
  split_and!; try done.
  - by rewrite dlist_ins_next_empty.
  - unfold dlist_destroy, bind. by rewrite Hloop.
Qed.

End Scenario.

(** ** Concrete runs *)

Section Examples.
Import DLExamples.
Local Open Scope string_scope.

Local Open Scope positive_scope.

(** The invariants tell a well-linked store from a broken one. *)
Example invariants_of_examples :
  dlist_invariants empty ∧ dlist_invariants one ∧ dlist_invariants two ∧
  dlist_invariants three ∧ ¬ dlist_invariants broken.
Proof. split_and!; compute_done. Qed.

Lemma step_preserves_invariants_witness :
  dlist_invariants two ∧
  op_ok two (InsertAfter (Some 1) "C" (Some 3)) ∧
  step (InsertAfter (Some 1) "C" (Some 3)) two = Some (0%Z, three) ∧
  op_ok two (InsertBefore (Some 2) "C" (Some 3)) ∧
  step (InsertBefore (Some 2) "C" (Some 3)) two = Some (0%Z, three) ∧
  dlist_invariants three ∧
  op_ok three (Remove (Some 1)) ∧
  step (Remove (Some 1)) three = Some (0%Z, c_b) ∧
  dlist_invariants c_b.
Proof.
  assert (H1 : dlist_invariants two) by compute_done.
  assert (H2 : op_ok two (InsertAfter (Some 1) "C" (Some 3))) by compute_done.
  assert (H3 : step (InsertAfter (Some 1) "C" (Some 3)) two = Some (0%Z, three))
    by compute_done.
  assert (H4 : op_ok two (InsertBefore (Some 2) "C" (Some 3))) by compute_done.
  assert (H5 : step (InsertBefore (Some 2) "C" (Some 3)) two = Some (0%Z, three))
    by compute_done.
  assert (H6 : op_ok three (Remove (Some 1))) by compute_done.
  assert (H7 : step (Remove (Some 1)) three = Some (0%Z, c_b)) by compute_done.
  pose proof (step_preserves_invariants two _ 0%Z three H1 H2 H3 eq_refl) as H8.
  pose proof (step_preserves_invariants two _ 0%Z three H1 H4 H5 eq_refl) as H9.
  pose proof (step_preserves_invariants three _ 0%Z c_b H8 H6 H7 eq_refl) as H10.
  split_and!; assumption.
Defined.

(** On an empty list the insertions take an [element] that is not
    none: they return 0 and change the list, where C2 as stated has
    them fail and leave the list as it is. *)
Lemma insert_with_element_on_empty_list :
  dlist_size (dl empty) = 0%Z ∧ is_null (Some 9) = false ∧
  dlist_ins_next (Some 1) (Some 9) "A" empty = Some (0%Z, one) ∧
  dlist_ins_prev (Some 1) (Some 9) "A" empty = Some (0%Z, one) ∧
  dl one ≠ dl empty.
Proof. split_and!; [compute_done..|discriminate]. Qed.

Lemma insert_fails_exactly_witness :
  ins_failure two (Some 3) None ∧
  dlist_ins_next (Some 3) None "C" two = Some ((-1)%Z, two) ∧
  dlist_ins_prev (Some 3) None "C" two = Some ((-1)%Z, two) ∧
  ¬ ins_failure two (Some 3) (Some 1) ∧
  dlist_invariants two ∧
  (dlist_size (dl two) ≠ 0%Z → valid_element two (Some 1)) ∧
  fresh two (Some 3) ∧
  ∃ s1 s2, dlist_ins_next (Some 3) (Some 1) "C" two = Some (0%Z, s1) ∧
           dlist_ins_prev (Some 3) (Some 1) "C" two = Some (0%Z, s2).
Proof.
  assert (H1 : ins_failure two (Some 3) None) by (left; split; [reflexivity|discriminate]).
  assert (H2 : ¬ ins_failure two (Some 3) (Some 1)) by (intros [[H _]|H]; discriminate H).
  assert (H3 : dlist_invariants two) by compute_done.
  assert (H4 : dlist_size (dl two) ≠ 0%Z → valid_element two (Some 1)) by compute_done.
  assert (H5 : fresh two (Some 3)) by compute_done.
  destruct (proj1 (insert_fails_exactly two (Some 3) None "C") H1) as [H6 H7].
  pose proof (proj2 (proj2 (proj1 (proj2 (insert_fails_exactly two (Some 3) (Some 1) "C")) H2))
                H3 H4 H5) as H8.
  split_and!; assumption.
Defined.

Lemma remove_fails_exactly_witness :
  remove_failure two None ∧
  dlist_remove None two = Some (((-1)%Z, None), two) ∧
  remove_failure empty (Some 1) ∧
  dlist_remove (Some 1) empty = Some (((-1)%Z, None), empty) ∧
  ¬ remove_failure two (Some 1) ∧
  dlist_invariants two ∧ valid_element two (Some 1) ∧
  ∃ d s', dlist_remove (Some 1) two = Some ((0%Z, Some d), s').
Proof.
  assert (H1 : remove_failure two None) by (left; reflexivity).
  assert (H2 : remove_failure empty (Some 1)) by (right; reflexivity).
  assert (H3 : ¬ remove_failure two (Some 1)) by (intros [H|H]; discriminate H).
  assert (H4 : dlist_invariants two) by compute_done.
  assert (H5 : valid_element two (Some 1)) by compute_done.
  pose proof (proj1 (remove_fails_exactly two None) H1) as H6.
  pose proof (proj1 (remove_fails_exactly empty (Some 1)) H2) as H7.
  pose proof (proj2 (proj2 (remove_fails_exactly two (Some 1)) H3) H4 H5) as H8.
  split_and!; assumption.
Defined.

Lemma destroy_calls_destructor_witness :
  dlist_invariants two ∧ destroy (dl two) = Some 7 ∧
  (Z.to_nat (dlist_size (dl two)) ≤ 2)%nat ∧
  ∃ s', dlist_destroy 2 two = Some (tt, s') ∧
        calls s' = (calls two ++ ((λ d, (7, d)) <$> reverse (dlist_payloads two)))%list ∧
        Z.of_nat (length (dlist_payloads two)) = dlist_size (dl two) ∧
        dl s' = sentinel.
Proof.
  assert (H1 : dlist_invariants two) by compute_done.
  assert (H2 : destroy (dl two) = Some 7) by reflexivity.
  assert (H3 : (Z.to_nat (dlist_size (dl two)) ≤ 2)%nat) by compute_done.
  pose proof (destroy_calls_destructor two 7 2%nat H1 H2 H3) as H4.
  split_and!; assumption.
Defined.

Lemma concrete_scenario_witness :
  heap empty !! 1 = None ∧ heap empty !! 2 = None ∧ heap empty !! 3 = None ∧
  1 ≠ 2 ∧ 1 ≠ 3 ∧ 2 ≠ 3 ∧
  ∃ s3 s4 s5,
    dlist_payloads s3 = ["A"; "C"; "B"] ∧
    dlist_remove (dlist_head (dl s3)) s3 = Some ((0%Z, Some "A"), s4) ∧
    dlist_payloads s4 = ["C"; "B"] ∧
    dlist_destroy 2 s4 = Some (tt, s5) ∧ dl s5 = sentinel.
Proof.
  assert (H1 : heap empty !! 1 = None) by reflexivity.
  assert (H2 : heap empty !! 2 = None) by reflexivity.
  assert (H3 : heap empty !! 3 = None) by reflexivity.
  assert (H12 : 1 ≠ 2) by discriminate.
  assert (H13 : 1 ≠ 3) by discriminate.
  assert (H23 : 2 ≠ 3) by discriminate.
  destruct (concrete_scenario empty None None 1 2 3 H1 H2 H3 H12 H13 H23)
    as (si & s1 & s2 & s3 & s4 & s5 & H).
  repeat (split; [assumption|]).
  exists s3, s4, s5. tauto.
Defined.

Lemma size_counts_successes_witness :
  bind (dlist_init (Some 7) None) (λ _, run calls_example) empty
  = Some ([0; 0; -1; -1; -1; 0]%Z, only_b) ∧
  dlist_size (dl only_b)
  = (count_success is_insert calls_example [0; 0; -1; -1; -1; 0]
     - count_success (λ o, negb (is_insert o)) calls_example [0; 0; -1; -1; -1; 0])%Z ∧
  dlist_init (Some 7) None empty
  = Some (tt, mkState ∅ (mkDList 0%Z None (Some 7) None None) []) ∧
  run_ok calls_example (mkState ∅ (mkDList 0%Z None (Some 7) None None) []) ∧
  ∃ rets s', bind (dlist_init (Some 7) None) (λ _, run calls_example) empty
             = Some (rets, s') ∧ dlist_invariants s'.
Proof.
  assert (H1 : bind (dlist_init (Some 7) None) (λ _, run calls_example) empty
               = Some ([0; 0; -1; -1; -1; 0]%Z, only_b)) by compute_done.
  assert (H2 : dlist_init (Some 7) None empty
               = Some (tt, mkState ∅ (mkDList 0%Z None (Some 7) None None) []))
    by reflexivity.
  assert (H3 : run_ok calls_example (mkState ∅ (mkDList 0%Z None (Some 7) None None) [])).
  { unfold calls_example.
    repeat (split; [compute_done|]; intros r s' Hstep; vm_compute in Hstep;
            injection Hstep as <- <-).
    exact I. }
  pose proof (proj1 (size_counts_successes (Some 7) None calls_example empty) _ _ H1) as H4.
  pose proof (proj2 (size_counts_successes (Some 7) None calls_example empty) _ H2 H3) as H5.
  split_and!; assumption.
Defined.

Lemma insert_remove_roundtrip_witness :
  dlist_size (dl empty) = 0%Z ∧ dlist_head (dl empty) = None ∧
  dlist_tail (dl empty) = None ∧ heap empty !! 1 = None ∧
  ∃ s1, dlist_ins_next (Some 1) None "A" empty = Some (0%Z, s1) ∧
        dlist_size (dl s1) = 1%Z ∧
        dlist_remove (dlist_head (dl s1)) s1 = Some ((0%Z, Some "A"), empty).
Proof.
  pose proof (insert_remove_roundtrip empty "A" 1 eq_refl eq_refl eq_refl eq_refl) as H.
  split_and!; try reflexivity. exact H.
Defined.

(** Destroy on a list initialized with a destructor and a matcher
    clears both fields, where C8 as stated has every field unchanged. *)
Lemma destroy_clears_callbacks :
  dlist_init (Some 7) (Some 8) empty = Some (tt, initialized) ∧
  dlist_destroy 1 initialized = Some (tt, empty) ∧
  destroy (dl initialized) = Some 7 ∧ destroy (dl empty) = None ∧
  dlist_match (dl initialized) = Some 8 ∧ dlist_match (dl empty) = None ∧
  dl empty ≠ dl initialized.
Proof. split_and!; [compute_done..|discriminate]. Qed.

Lemma remove_returns_payload_witness :
  dlist_remove (Some 1) three = Some ((0%Z, Some "A"), c_b) ∧
  calls c_b = calls three ∧
  ∃ l n, Some 1 = Some l ∧ heap three !! l = Some n ∧
         Some "A" = Some (dlist_data n) ∧ heap c_b !! l = None.
Proof.
  assert (H1 : dlist_remove (Some 1) three = Some ((0%Z, Some "A"), c_b)) by compute_done.
  destruct (remove_returns_payload three (Some 1) _ c_b H1) as [H2 H3].
  split_and!; [assumption..|]. exact (H3 eq_refl).
Defined.

(** ** Concrete runs of the further properties *)

(** On a well-formed list the three operations take a cell that is
    allocated but is no member, return 0 and leave a list whose scan
    from the head no longer visits [size] elements, where C1 as stated
    has the invariants hold after every successful operation. *)
Lemma nonmember_element_breaks_invariants :
  dlist_invariants with_other_list ∧
  (9 ∉ dlist_members with_other_list) ∧
  (∃ s', step (InsertAfter (Some 9) "C" (Some 3)) with_other_list = Some (0%Z, s') ∧
         dlist_size (dl s') = 3%Z ∧ forward_scan s' = Some [1; 2] ∧
         ¬ dlist_invariants s') ∧
  (∃ s', step (InsertBefore (Some 9) "C" (Some 3)) with_other_list = Some (0%Z, s') ∧
         dlist_size (dl s') = 3%Z ∧ forward_scan s' = Some [1; 2] ∧
         ¬ dlist_invariants s') ∧
  (∃ s', step (Remove (Some 9)) with_other_list = Some (0%Z, s') ∧
         dlist_size (dl s') = 1%Z ∧ forward_scan s' = None ∧
         ¬ dlist_invariants s').
Proof.
  split_and!; [compute_done| compute_done|..];
    (eexists; split; [reflexivity|]; split_and!; compute_done).
Qed.

Lemma ins_next_position_witness :
  dlist_invariants two ∧
  dlist_contents two = ([] ++ (1, "A") :: [(2, "B")])%list ∧
  heap two !! 3 = None ∧
  ∃ s', dlist_ins_next (Some 3) (Some 1) "C" two = Some (0%Z, s') ∧
        dlist_contents s' = ([] ++ (1, "A") :: (3, "C") :: [(2, "B")])%list.
Proof.
  assert (H1 : dlist_invariants two) by compute_done.
  assert (H2 : dlist_contents two = ([] ++ (1, "A") :: [(2, "B")])%list) by compute_done.
  assert (H3 : heap two !! 3 = None) by reflexivity.
  pose proof (ins_next_position two [] 1 "A" [(2, "B")] 3 "C" H1 H2 H3) as H4.
  split_and!; assumption.
Defined.

Lemma ins_prev_position_witness :
  dlist_invariants two ∧
  dlist_contents two = ([(1, "A")] ++ (2, "B") :: [])%list ∧
  heap two !! 3 = None ∧
  ∃ s', dlist_ins_prev (Some 3) (Some 2) "C" two = Some (0%Z, s') ∧
        dlist_contents s' = ([(1, "A")] ++ (3, "C") :: (2, "B") :: [])%list.
Proof.
  assert (H1 : dlist_invariants two) by compute_done.
  assert (H2 : dlist_contents two = ([(1, "A")] ++ (2, "B") :: [])%list) by compute_done.
  assert (H3 : heap two !! 3 = None) by reflexivity.
  pose proof (ins_prev_position two [(1, "A")] 2 "B" [] 3 "C" H1 H2 H3) as H4.
  split_and!; assumption.
Defined.

Lemma remove_position_witness :
  dlist_invariants three ∧
  dlist_contents three = ([(1, "A")] ++ (3, "C") :: [(2, "B")])%list ∧
  ∃ s', dlist_remove (Some 3) three = Some ((0%Z, Some "C"), s') ∧
        dlist_contents s' = ([(1, "A")] ++ [(2, "B")])%list.
Proof.
  assert (H1 : dlist_invariants three) by compute_done.
  assert (H2 : dlist_contents three = ([(1, "A")] ++ (3, "C") :: [(2, "B")])%list)
    by compute_done.
  pose proof (remove_position three [(1, "A")] 3 "C" [(2, "B")] H1 H2) as H3.
  split_and!; assumption.
Defined.

Lemma ins_next_tail_appends_witness :
  dlist_invariants two ∧ heap two !! 3 = None ∧
  ∃ s', dlist_ins_next (Some 3) (dlist_tail (dl two)) "C" two = Some (0%Z, s') ∧
        dlist_contents s' = (dlist_contents two ++ [(3, "C")])%list ∧
        dlist_tail (dl s') = Some 3.
Proof.
  assert (H1 : dlist_invariants two) by compute_done.
  assert (H2 : heap two !! 3 = None) by reflexivity.
  pose proof (ins_next_tail_appends two 3 "C" H1 H2) as H3.
  split_and!; assumption.
Defined.

Lemma ins_prev_head_prepends_witness :
  dlist_invariants two ∧ heap two !! 3 = None ∧
  ∃ s', dlist_ins_prev (Some 3) (dlist_head (dl two)) "C" two = Some (0%Z, s') ∧
        dlist_contents s' = (3, "C") :: dlist_contents two ∧
        dlist_head (dl s') = Some 3.
Proof.
  assert (H1 : dlist_invariants two) by compute_done.
  assert (H2 : heap two !! 3 = None) by reflexivity.
  pose proof (ins_prev_head_prepends two 3 "C" H1 H2) as H3.
  split_and!; assumption.
Defined.

Lemma ins_next_footprint_witness :
  dlist_ins_next (Some 3) (Some 1) "C" with_spare_two = Some (0%Z, with_spare_three) ∧
  heap with_spare_three !! 9 = heap with_spare_two !! 9 ∧
  dlist_data <$> heap with_spare_three !! 2 = Some "B" ∧
  ∃ ne, Some 3 = Some ne ∧
        dom (heap with_spare_three) = {[ne]} ∪ dom (heap with_spare_two).
Proof.
  assert (H1 : dlist_ins_next (Some 3) (Some 1) "C" with_spare_two
               = Some (0%Z, with_spare_three)) by compute_done.
  destruct (ins_next_footprint _ _ _ _ _ _ H1) as (H2 & H3 & H4).
  split_and!; [assumption| | |exact (H4 eq_refl)].
  - apply H2; compute_done.
  - apply (H3 2 (mkElmt "B" (Some 1) None)); compute_done.
Defined.

Lemma ins_prev_footprint_witness :
  dlist_ins_prev (Some 3) (Some 2) "C" with_spare_two = Some (0%Z, with_spare_three) ∧
  heap with_spare_three !! 9 = heap with_spare_two !! 9 ∧
  dlist_data <$> heap with_spare_three !! 1 = Some "A" ∧
  ∃ ne, Some 3 = Some ne ∧
        dom (heap with_spare_three) = {[ne]} ∪ dom (heap with_spare_two).
Proof.
  assert (H1 : dlist_ins_prev (Some 3) (Some 2) "C" with_spare_two
               = Some (0%Z, with_spare_three)) by compute_done.
  destruct (ins_prev_footprint _ _ _ _ _ _ H1) as (H2 & H3 & H4).
  split_and!; [assumption| | |exact (H4 eq_refl)].
  - apply H2; compute_done.
  - apply (H3 1 (mkElmt "A" None (Some 2))); compute_done.
Defined.

Lemma remove_footprint_witness :
  dlist_remove (Some 3) with_spare_three = Some ((0%Z, Some "C"), with_spare_two) ∧
  heap with_spare_two !! 9 = heap with_spare_three !! 9 ∧
  dlist_data <$> heap with_spare_two !! 1 = Some "A" ∧
  ∃ e, Some 3 = Some e ∧
       dom (heap with_spare_two) = dom (heap with_spare_three) ∖ {[e]}.
Proof.
  assert (H1 : dlist_remove (Some 3) with_spare_three
               = Some ((0%Z, Some "C"), with_spare_two)) by compute_done.
  destruct (remove_footprint _ _ _ _ H1) as (H2 & H3 & H4).
  split_and!; [assumption| | |exact (H4 eq_refl)].
  - apply H2; compute_done.
  - apply (H3 1 (mkElmt "A" None (Some 3))); compute_done.
Defined.

Lemma insert_remove_restores_witness :
  dlist_invariants two ∧ 1 ∈ dlist_members two ∧ heap two !! 3 = None ∧
  (∃ s1, dlist_ins_next (Some 3) (Some 1) "C" two = Some (0%Z, s1) ∧
         dlist_remove (Some 3) s1 = Some ((0%Z, Some "C"), two)) ∧
  (∃ s1, dlist_ins_prev (Some 3) (Some 1) "C" two = Some (0%Z, s1) ∧
         dlist_remove (Some 3) s1 = Some ((0%Z, Some "C"), two)).
Proof.
  assert (H1 : dlist_invariants two) by compute_done.
  assert (H2 : 1 ∈ dlist_members two) by compute_done.
  assert (H3 : heap two !! 3 = None) by reflexivity.
  destruct (insert_remove_restores two 1 3 "C" H1 H2 H3) as [H4 H5].
  split_and!; assumption.
Defined.

Lemma destroy_frees_members_witness :
  dlist_invariants with_spare_two ∧
  (Z.to_nat (dlist_size (dl with_spare_two)) ≤ 2)%nat ∧
  ∃ s', dlist_destroy 2 with_spare_two = Some (tt, s') ∧
        heap s' !! 1 = None ∧ heap s' !! 2 = None ∧
        heap s' !! 9 = heap with_spare_two !! 9 ∧
        calls s' = calls with_spare_two.
Proof.
  assert (H1 : dlist_invariants with_spare_two) by compute_done.
  assert (H2 : (Z.to_nat (dlist_size (dl with_spare_two)) ≤ 2)%nat) by compute_done.
  destruct (destroy_frees_members with_spare_two 2 H1 H2) as (s' & H3 & H4 & H5 & H6).
  split_and!; [assumption..|].
  exists s'. split_and!; [assumption| | | |exact (H6 eq_refl)].
  - apply H4. compute_done.
  - apply H4. compute_done.
  - apply H5. compute_done.
Defined.

Lemma destroy_without_tail_diverges_witness :
  (0 < dlist_size (dl no_tail))%Z ∧ dlist_tail (dl no_tail) = None ∧
  dlist_remove (dlist_tail (dl no_tail)) no_tail = Some (((-1)%Z, None), no_tail) ∧
  (∀ data, destroy_round data no_tail = Some (data, no_tail)) ∧
  (∀ data, destroy_loop_result 5 data no_tail = StillRunning) ∧
  dlist_destroy 5 no_tail = None.
Proof.
  assert (H1 : (0 < dlist_size (dl no_tail))%Z) by reflexivity.
  assert (H2 : dlist_tail (dl no_tail) = None) by reflexivity.
  pose proof (destroy_without_tail_diverges no_tail 5 H1 H2) as H3.
  split_and!; try assumption; apply H3.
Defined.

Lemma remove_all_any_order_witness :
  dlist_invariants three ∧ [3; 1; 2] ≡ₚ dlist_members three ∧
  ∃ s', run ((λ l, Remove (Some l)) <$> [3; 1; 2]) three
        = Some (replicate (length [3; 1; 2]) 0%Z, s') ∧
        dlist_size (dl s') = 0%Z ∧
        dlist_head (dl s') = None ∧ dlist_tail (dl s') = None ∧
        (∀ l, l ∈ [3; 1; 2] → heap s' !! l = None).
Proof.
  assert (H1 : dlist_invariants three) by compute_done.
  assert (H2 : [3; 1; 2] ≡ₚ dlist_members three).
  { change (dlist_members three) with [1; 3; 2]. apply perm_swap. }
  pose proof (remove_all_any_order three [3; 1; 2] H1 H2) as H3.
  split_and!; assumption.
Defined.


Lemma ins_next_nonmember_breaks_invariants_witness :
  dlist_invariants with_spare_two ∧ dlist_size (dl with_spare_two) ≠ 0%Z ∧
  heap with_spare_two !! 9 = Some (mkElmt "Z" None None) ∧
  (9 ∉ dlist_members with_spare_two) ∧
  heap with_spare_two !! 3 = None ∧
  ∃ s', dlist_ins_next (Some 3) (Some 9) "C" with_spare_two = Some (0%Z, s') ∧
        dlist_size (dl s') = (dlist_size (dl with_spare_two) + 1)%Z ∧
        forward_scan s' = forward_scan with_spare_two ∧
        ¬ dlist_invariants s'.
Proof.
  assert (H1 : dlist_invariants with_spare_two) by compute_done.
  assert (H2 : dlist_size (dl with_spare_two) ≠ 0%Z) by discriminate.
  assert (H3 : heap with_spare_two !! 9 = Some (mkElmt "Z" None None)) by reflexivity.
  assert (H4 : 9 ∉ dlist_members with_spare_two) by compute_done.
  assert (H5 : heap with_spare_two !! 3 = None) by reflexivity.
  pose proof (ins_next_nonmember_breaks_invariants with_spare_two 9 _ 3 "C"
                H1 H2 H3 H4 I H5) as H6.
  split_and!; assumption.
Defined.
End Examples.

End DLTheory.

(** * Properties of [titleToNumber] *)

Module ExcelTheory.
Import Excel.

Lemma int_wrap_small z : - 2 ^ 31 <= z < 2 ^ 31 → int_wrap z = z.
Proof.
  intros Hz. unfold int_wrap.
  rewrite Z.mod_small; lia.
Qed.

Lemma positional_sum_nonneg n i s :
  all_upper s → (i + String.length s ≤ n)%nat → 0 <= positional_sum n i s.
Proof.
  revert i. induction s as [|c s IH]; intros i Hup Hlen; cbn [positional_sum].
  - lia.
  - destruct Hup as [[Hlo Hhi] Hup]. cbn [String.length] in Hlen.
    specialize (IH (S i) Hup ltac:(lia)).
    assert (0 <= 26 ^ (Z.of_nat n - 1 - Z.of_nat i)) by (apply Z.pow_nonneg; lia).
    nia.
Qed.

(** The loop computes Horner's scheme, as long as the final value fits
    an [int]. *)
Lemma titleToNumber_loop_spec s : ∀ i result,
  all_upper s → 0 <= result →
  result * 26 ^ Z.of_nat (String.length s)
    + positional_sum (i + String.length s) i s < 2 ^ 31 →
  titleToNumber_loop s result
  = result * 26 ^ Z.of_nat (String.length s)
    + positional_sum (i + String.length s) i s.
Proof.
  induction s as [|c s IH]; intros i result Hup Hres Hfit.
  - cbn. lia.
  - destruct Hup as [[Hlo Hhi] Hup].
    cbn [titleToNumber_loop String.length positional_sum] in *.
    replace (i + S (String.length s))%nat with (S i + String.length s)%nat in * by lia.
    set (len := String.length s) in *.
    set (v := char_to_int c - char_to_int "A" + 1) in *.
    assert (Hv : 1 <= v <= 26) by (unfold v; change (char_to_int "A") with 65 in *;
                                   change (char_to_int "Z") with 90 in *; lia).
    replace (Z.of_nat (S i + len) - 1 - Z.of_nat i) with (Z.of_nat len) in * by lia.
    assert (Hpow : 1 <= 26 ^ Z.of_nat len) by (apply Z.pow_le_mono_r with (b := 0) (a := 26); lia).
    assert (Hrest : 0 <= positional_sum (S i + len) (S i) s)
      by (apply positional_sum_nonneg; [done | unfold len; lia]).
    replace (26 ^ Z.of_nat (S len)) with (26 * 26 ^ Z.of_nat len) in *
      by (rewrite Nat2Z.inj_succ, Z.pow_succ_r; lia).
    assert (Hstep : result * 26 + v < 2 ^ 31) by nia.
    rewrite (int_wrap_small (char_to_int c - char_to_int "A")) by lia.
    fold v.
    rewrite (int_wrap_small v) by lia.
    rewrite (int_wrap_small (result * 26)) by lia.
    rewrite (int_wrap_small (result * 26 + v)) by lia.
    rewrite (IH (S i) (result * 26 + v)); [lia | done | lia | lia].
Qed.

(** C10: on a string of letters ['A'..'Z'] whose bijective base-26
    value is below [2^31], [titleToNumber] returns that value, the sum
    of [(s[i] - 'A' + 1) * 26^(length - 1 - i)]; it returns 0 for the
    empty string, 1 for "A", 26 for "Z" and 27 for "AA". *)
Theorem titleToNumber_bijective_base26 :
  (∀ s, all_upper s → bijective_base26 s < 2 ^ 31 →
        titleToNumber s = bijective_base26 s) ∧
  titleToNumber "" = 0 ∧ titleToNumber "A" = 1 ∧
  titleToNumber "Z" = 26 ∧ titleToNumber "AA" = 27.
Proof.
  split; [|by vm_compute].
  intros s Hup Hfit. unfold titleToNumber, bijective_base26 in *.
  rewrite (titleToNumber_loop_spec s 0 0); [| done | lia |]; simpl (0 * _); by rewrite ?Nat.add_0_l.
Qed.

Lemma titleToNumber_bijective_base26_witness :
  all_upper "FXSHRXW" ∧ bijective_base26 "FXSHRXW" < 2 ^ 31 ∧
  titleToNumber "FXSHRXW" = 2147483647.
Proof.
  assert (Hup : all_upper "FXSHRXW") by (vm_compute; intuition discriminate).
  assert (Hfit : bijective_base26 "FXSHRXW" < 2 ^ 31) by (by vm_compute).
  split; [exact Hup|]. split; [exact Hfit|].
  rewrite (proj1 titleToNumber_bijective_base26 "FXSHRXW"%string Hup Hfit).
  by vm_compute.
Defined.

(** ** Place values *)

Lemma all_upper_app s t : all_upper (s ++ t) ↔ all_upper s ∧ all_upper t.
Proof. induction s as [|c s IH]; simpl; [tauto|]. rewrite IH. tauto. Qed.

Lemma length_append s t :
  String.length (s ++ t) = (String.length s + String.length t)%nat.
Proof. induction s as [|c s IH]; simpl; [done|]. by rewrite IH. Qed.

Lemma horner_app s t r : horner (s ++ t) r = horner t (horner s r).
Proof. revert r. induction s as [|c s IH]; intros r; simpl; [done|]. apply IH. Qed.

Lemma horner_shift s r :
  horner s r = r * 26 ^ Z.of_nat (String.length s) + horner s 0.
Proof.
  revert r. induction s as [|c s IH]; intros r; cbn [horner String.length].
  - simpl. lia.
  - rewrite IH, (IH (0 * 26 + _)).
    rewrite Nat2Z.inj_succ, Z.pow_succ_r by lia. lia.
Qed.

Lemma horner_positional s : ∀ i r,
  horner s r
  = r * 26 ^ Z.of_nat (String.length s)
    + positional_sum (i + String.length s) i s.
Proof.
  induction s as [|c s IH]; intros i r; cbn [horner String.length positional_sum].
  - simpl. lia.
  - rewrite (IH (S i)).
    replace (i + S (String.length s))%nat with (S i + String.length s)%nat by lia.
    replace (Z.of_nat (S i + String.length s) - 1 - Z.of_nat i)
      with (Z.of_nat (String.length s)) by lia.
    rewrite Nat2Z.inj_succ, Z.pow_succ_r by lia. lia.
Qed.

Lemma horner_bijective_base26 s : horner s 0 = bijective_base26 s.
Proof.
  unfold bijective_base26. rewrite (horner_positional s 0 0). simpl. lia.
Qed.

Lemma repunit_pow n : 26 ^ Z.of_nat n = 25 * repunit n + 1.
Proof.
  induction n as [|n IH]; [done|].
  rewrite Nat2Z.inj_succ, Z.pow_succ_r by lia. cbn [repunit]. lia.
Qed.

Lemma repunit_nonneg n : 0 <= repunit n.
Proof. induction n; simpl; lia. Qed.

Lemma repunit_mono n m : (n ≤ m)%nat → repunit n <= repunit m.
Proof.
  induction 1 as [|m Hle IH]; [lia|].
  pose proof (repunit_nonneg m). cbn [repunit]. lia.
Qed.

(** A title of [n] letters lies between "A...A" and "Z...Z". *)
Lemma horner_bounds s :
  all_upper s →
  repunit (String.length s) <= horner s 0 <= 26 * repunit (String.length s).
Proof.
  induction s as [|c s IH]; cbn [horner String.length repunit all_upper]; [lia|].
  intros [[Hlo Hhi] Hup]. specialize (IH Hup).
  change (char_to_int "A") with 65 in *. change (char_to_int "Z") with 90 in *.
  rewrite horner_shift, repunit_pow.
  pose proof (repunit_nonneg (String.length s)). nia.
Qed.

Lemma titleToNumber_horner s :
  all_upper s → bijective_base26 s < 2 ^ 31 → titleToNumber s = horner s 0.
Proof.
  intros Hup Hfit. rewrite horner_bijective_base26.
  unfold titleToNumber, bijective_base26 in *.
  rewrite (titleToNumber_loop_spec s 0 0); [| done | lia |];
    simpl (0 * _); by rewrite ?Nat.add_0_l.
Qed.

(** X14: the number of a title is built by place value: for letters
    ['A'..'Z'] and a value below [2^31], the number of [s ++ t] is the
    number of [s] times [26^length(t)] plus the number of [t]. *)
Theorem titleToNumber_app s t :
  all_upper (s ++ t) → bijective_base26 (s ++ t) < 2 ^ 31 →
  titleToNumber (s ++ t)
  = titleToNumber s * 26 ^ Z.of_nat (String.length t) + titleToNumber t.
Proof.
  intros Hup Hfit. pose proof Hup as [Hs Ht]%all_upper_app.
  rewrite titleToNumber_horner by done.
  rewrite <- horner_bijective_base26 in Hfit.
  rewrite horner_app, horner_shift in Hfit |- *.
  pose proof (horner_bounds s Hs) as Hbs. pose proof (horner_bounds t Ht) as Hbt.
  pose proof (repunit_nonneg (String.length s)).
  pose proof (repunit_nonneg (String.length t)).
  pose proof (repunit_pow (String.length t)) as Hpow.
  set (P := 26 ^ Z.of_nat (String.length t)) in *.
  assert (Hle : horner s 0 <= horner s 0 * P) by nia.
  rewrite !titleToNumber_horner; [done|done| |done|].
  - rewrite <- horner_bijective_base26. lia.
  - rewrite <- horner_bijective_base26. lia.
Qed.

Lemma horner_length_lt s t :
  all_upper s → all_upper t →
  (String.length s < String.length t)%nat →
  horner s 0 < horner t 0.
Proof.
  intros Hs Ht Hlen.
  pose proof (horner_bounds s Hs) as Hbs. pose proof (horner_bounds t Ht) as Hbt.
  pose proof (repunit_mono (S (String.length s)) (String.length t) Hlen) as Hm.
  pose proof (repunit_nonneg (String.length s)).
  cbn [repunit] in Hm. lia.
Qed.

(** X15: among the titles of letters ['A'..'Z'] with a value below
    [2^31], a shorter title has a smaller number. *)
Theorem titleToNumber_length_lt s t :
  all_upper s → all_upper t →
  bijective_base26 s < 2 ^ 31 → bijective_base26 t < 2 ^ 31 →
  (String.length s < String.length t)%nat →
  titleToNumber s < titleToNumber t.
Proof.
  intros Hs Ht Hfs Hft Hlen. rewrite !titleToNumber_horner by done.
  by apply horner_length_lt.
Qed.

Lemma char_to_int_upper_inj c c' :
  is_upper c → is_upper c' → char_to_int c = char_to_int c' → c = c'.
Proof.
  unfold is_upper, char_to_int. change (Z.of_N (N_of_ascii "A")) with 65.
  change (Z.of_N (N_of_ascii "Z")) with 90. simpl.
  intros Hc Hc' Heq.
  rewrite <- (ascii_N_embedding c), <- (ascii_N_embedding c'). f_equal.
  pose proof (N_ascii_bounded c). pose proof (N_ascii_bounded c').
  destruct (128 <=? Z.of_N (N_of_ascii c)) eqn:E, (128 <=? Z.of_N (N_of_ascii c')) eqn:E';
    rewrite ?Z.leb_le, ?Z.leb_gt in *; lia.
Qed.

Lemma horner_inj s : ∀ t,
  String.length s = String.length t → all_upper s → all_upper t →
  horner s 0 = horner t 0 → s = t.
Proof.
  induction s as [|c s IH]; intros [|c' t]; cbn [String.length]; try done.
  intros [= Hlen] [Hc Hs] [Hc' Ht]. cbn [horner].
  rewrite (horner_shift s), (horner_shift t), <- Hlen.
  pose proof (horner_bounds s Hs) as Hbs. pose proof (horner_bounds t Ht) as Hbt.
  rewrite <- Hlen in Hbt.
  pose proof (repunit_nonneg (String.length s)).
  pose proof (repunit_pow (String.length s)) as Hpow.
  intros Heq.
  assert (Hv : char_to_int c = char_to_int c') by nia.
  assert (Hh : horner s 0 = horner t 0) by (rewrite Hv in Heq; lia).
  f_equal; [by apply char_to_int_upper_inj|by apply IH].
Qed.

(** X16: among the titles of letters ['A'..'Z'] with a value below
    [2^31], different titles have different numbers. *)
Theorem titleToNumber_inj s t :
  all_upper s → all_upper t →
  bijective_base26 s < 2 ^ 31 → bijective_base26 t < 2 ^ 31 →
  titleToNumber s = titleToNumber t → s = t.
Proof.
  intros Hs Ht Hfs Hft Heq. rewrite !titleToNumber_horner in Heq by done.
  destruct (lt_eq_lt_dec (String.length s) (String.length t)) as [[Hlt|Hlen]|Hgt].
  - pose proof (horner_length_lt s t Hs Ht Hlt). lia.
  - by apply horner_inj.
  - pose proof (horner_length_lt t s Ht Hs Hgt). lia.
Qed.

Lemma titleToNumber_app_witness :
  all_upper ("AB" ++ "CD") ∧ bijective_base26 ("AB" ++ "CD") < 2 ^ 31 ∧
  titleToNumber ("AB" ++ "CD")
  = titleToNumber "AB" * 26 ^ Z.of_nat (String.length "CD") + titleToNumber "CD".
Proof.
  assert (Hup : all_upper ("AB" ++ "CD")) by (vm_compute; intuition discriminate).
  assert (Hfit : bijective_base26 ("AB" ++ "CD") < 2 ^ 31) by (by vm_compute).
  pose proof (titleToNumber_app "AB" "CD" Hup Hfit) as H.
  split; [exact Hup|]. split; [exact Hfit|exact H].
Defined.

Lemma titleToNumber_length_lt_witness :
  all_upper "ZZ" ∧ all_upper "AAA" ∧
  bijective_base26 "ZZ" < 2 ^ 31 ∧ bijective_base26 "AAA" < 2 ^ 31 ∧
  (String.length "ZZ" < String.length "AAA")%nat ∧
  titleToNumber "ZZ" < titleToNumber "AAA".
Proof.
  assert (H1 : all_upper "ZZ") by (vm_compute; intuition discriminate).
  assert (H2 : all_upper "AAA") by (vm_compute; intuition discriminate).
  assert (H3 : bijective_base26 "ZZ" < 2 ^ 31) by (by vm_compute).
  assert (H4 : bijective_base26 "AAA" < 2 ^ 31) by (by vm_compute).
  assert (H5 : (String.length "ZZ" < String.length "AAA")%nat) by (simpl; lia).
  pose proof (titleToNumber_length_lt "ZZ" "AAA" H1 H2 H3 H4 H5) as H6.
  repeat (split; [assumption|]). exact H6.
Defined.

Lemma titleToNumber_inj_witness :
  all_upper "AB" ∧ all_upper ("A" ++ "B") ∧
  bijective_base26 "AB" < 2 ^ 31 ∧ bijective_base26 ("A" ++ "B") < 2 ^ 31 ∧
  titleToNumber "AB" = titleToNumber ("A" ++ "B") ∧
  "AB"%string = ("A" ++ "B")%string.
Proof.
  assert (H1 : all_upper "AB") by (vm_compute; intuition discriminate).
  assert (H2 : all_upper ("A" ++ "B")) by (vm_compute; intuition discriminate).
  assert (H3 : bijective_base26 "AB" < 2 ^ 31) by (by vm_compute).
  assert (H4 : bijective_base26 ("A" ++ "B") < 2 ^ 31) by (by vm_compute).
  assert (H5 : titleToNumber "AB" = titleToNumber ("A" ++ "B")) by reflexivity.
  pose proof (titleToNumber_inj "AB" ("A" ++ "B") H1 H2 H3 H4 H5) as H6.
  repeat (split; [assumption|]). exact H6.
Defined.

End ExcelTheory.
